(** * Issue triage session (src/App.tsx): model and verified properties

    A shallow embedding of the triage application's logic: the
    repository-URL parser, the score validator, the summarizer client with
    its retry loop, the PR-liveness checker, the per-issue pipeline and the
    session state held by the [App] component.

    Strings are [string]; the score mapping (a JS object keyed by issue
    number) is a [gmap Z ScoreEntry]; network calls and timers are run in a
    small state-and-exception monad over a trace, against an environment
    that fixes what every endpoint answers.

    The asynchronous pipeline is described twice: as functions that run
    each call to its end (the session of an operator who waits for the
    screen to settle before acting), and as a transition system of single
    events in which the answer of a call may arrive after the operator has
    moved on ([astep]). *)

From Stdlib Require Import ZArith NArith Ascii String List Lia.
From stdpp Require Import base option list strings gmap fin_maps pretty.

Local Open Scope string_scope.
Local Open Scope list_scope.

(** ** Configuration (lines 17-34) *)

Definition GEMINI_MODEL : string := "gemini-2.0-flash".

Definition ISSUE_TYPES : list string :=
  ["feat"; "fix"; "docs"; "style"; "refactor"; "perf"; "test"; "ci";
   "build"; "chore"; "revert"].

(** Number of fully scored issues required to complete a session. *)
Definition TARGET_ISSUE_COUNT : nat := 15.

(** [interface ScoreEntry]: the three scores and the classification are
    strings; the issue's number, title and URL are optional and only present
    on a committed entry. *)
Record ScoreEntry := mkScoreEntry {
  ambiguity : string;
  scale : string;
  novelty : string;
  type : string;
  issueNumber : option Z;
  entryTitle : option string;   (* title?: string *)
  entryUrl : option string      (* url?: string *)
}.

#[global] Instance ScoreEntry_eq_dec : EqDecision ScoreEntry.
Proof. solve_decision. Defined.

(** ** JavaScript string and array primitives used by the helpers *)

(** [s.replace(/\/$/, "")]: the pattern is anchored at the end of the input
    and has no [g] flag, so at most the one final slash is removed. *)
Fixpoint removeTrailingSlash (s : string) : string :=
  match s with
  | EmptyString => EmptyString
  | String c EmptyString => if Ascii.eqb c "/" then EmptyString else s
  | String c rest => String c (removeTrailingSlash rest)
  end.

(** [s.split(sep)] for a one-character separator: always at least one
    segment, the empty string splits into one empty segment. *)
Fixpoint split (sep : ascii) (s : string) : list string :=
  match s with
  | EmptyString => [EmptyString]
  | String c rest =>
      if Ascii.eqb c sep then EmptyString :: split sep rest
      else match split sep rest with
           | seg :: segs => String c seg :: segs
           | [] => [String c EmptyString]
           end
  end.

(** [segs.join(sep)]. *)
Fixpoint join (sep : ascii) (segs : list string) : string :=
  match segs with
  | [] => EmptyString
  | [seg] => seg
  | seg :: rest => seg +:+ String sep (join sep rest)
  end.

(** [arr.pop()]: the removed last element ([undefined] on an empty array)
    and the array that remains. *)
Definition pop {A} (arr : list A) : option A * list A :=
  (last arr, removelast arr).

(** [arr.includes(x)] on an array of strings. *)
Definition includes (arr : list string) (x : string) : bool :=
  existsb (String.eqb x) arr.

(** Number of occurrences of a character. *)
Fixpoint occurrences (c : ascii) (s : string) : nat :=
  match s with
  | EmptyString => 0
  | String d rest => (if Ascii.eqb d c then 1 else 0) + occurrences c rest
  end.

(** Whether a string ends with the given character. *)
Fixpoint endsWith (c : ascii) (s : string) : bool :=
  match s with
  | EmptyString => false
  | String d EmptyString => Ascii.eqb d c
  | String _ rest => endsWith c rest
  end.

(** ** parseRepoUrl (lines 49-60) *)

(** The object literal [{ owner, repo }]: both come from [pop()], whose
    result type admits [undefined]. *)
Record RepoData := mkRepoData {
  owner : option string;
  repo : option string
}.

(** Nothing in the [try] block throws on a string argument, so the [catch]
    branch is never taken. *)
Definition parseRepoUrl (url : string) : option RepoData :=
  let cleanUrl := removeTrailingSlash url in
  let parts := split "/" cleanUrl in
  if (length parts <? 2)%nat then None
  else
    let '(repo, parts1) := pop parts in
    let '(owner, _) := pop parts1 in
    Some {| owner := owner; repo := repo |}.

(** ** isValidScore (lines 63-70) *)

Definition validValues : list string := ["1"; "2"; "3"; "4"; "5"].

Definition isValidScore (scoreEntry : ScoreEntry) : bool :=
  includes validValues (ambiguity scoreEntry) &&
  includes validValues (scale scoreEntry) &&
  includes validValues (novelty scoreEntry).

(** ** The outside world: HTTP endpoints and timers *)

(** Values thrown in JavaScript. [Error] is what the application itself
    constructs; a rejected [fetch] is a network failure; [response.json()]
    rejects with a syntax error; [TypeError] is a property access on
    [undefined]. *)
Inductive exn :=
| Error (message : string)
| NetworkError (message : string)
| SyntaxError (message : string)
| TypeError (message : string).

(** A resolved [fetch]: the status line and what [response.json()] gives,
    which is either the decoded body or a rejection. *)
Record Response (B : Type) := mkResponse {
  status : N;
  json : exn + B
}.
Arguments mkResponse {B} _ _.
Arguments status {B} _.
Arguments json {B} _.

(** [response.ok]: the status is in the range 200-299. *)
Definition ok {B} (response : Response B) : bool :=
  ((200 <=? status response) && (status response <=? 299))%N.

(** A [fetch] promise either rejects (transport error) or resolves. *)
Inductive FetchOutcome (B : Type) :=
| Rejected (e : exn)
| Resolved (response : Response B).
Arguments Rejected {B} _.
Arguments Resolved {B} _.

(** Body of the summarization endpoint, along the path
    [candidates[0].content.parts[0].text]; every step may be absent. *)
Record Part := mkPart { text : option string }.
Record Content := mkContent { parts : option (list Part) }.
Record Candidate := mkCandidate { content : option Content }.
Record GeminiData := mkGeminiData { candidates : option (list Candidate) }.

(** Timeline endpoint: a sequence of events, each optionally
    [{event, source: {issue: {pull_request, state}}}]. A present
    [pull_request] is an object, hence truthy. *)
Record PullRequestLinks := mkPullRequestLinks { pr_html_url : string }.
Record SourceIssue := mkSourceIssue {
  pull_request : option PullRequestLinks;
  state : option string
}.
Record Source := mkSource { issue : option SourceIssue }.
Record TimelineEvent := mkTimelineEvent {
  event : option string;
  source : option Source
}.

(** Comments endpoint: a sequence of [{user: {login}, body}]. *)
Record Comment := mkComment {
  login : string;
  commentBody : string
}.

(** An issue as returned by the search endpoint. *)
Record Issue := mkIssue {
  number : Z;
  title : string;
  body : option string;
  html_url : string;
  created_at : string;
  comments_url : string;
  url : string
}.

(** Body of the search endpoint: [data.items] may be missing. *)
Record SearchData := mkSearchData { items : option (list Issue) }.

(** What the outside world answers. GET requests are answered by URL; the
    n-th POST to the summarization endpoint is answered by [gemini_api n],
    so that successive attempts can differ; the n-th timer fires
    [timer_lag n] milliseconds later than requested (never earlier). *)
Record Env := mkEnv {
  search_api : string -> FetchOutcome SearchData;
  timeline_api : string -> FetchOutcome (list TimelineEvent);
  comments_api : string -> FetchOutcome (list Comment);
  gemini_api : nat -> FetchOutcome GeminiData;
  timer_lag : nat -> N
}.

(** What the program has done to the world so far: the POSTs sent to the
    summarization endpoint (URL and prompt, oldest first), the delays passed
    to [setTimeout] (oldest first), and the milliseconds spent waiting on
    timers. *)
Record Trace := mkTrace {
  posts : list (string * string);
  sleeps : list N;
  waited : N
}.

Definition emptyTrace : Trace := {| posts := []; sleeps := []; waited := 0 |}.

(** ** A monad for asynchronous code that may throw *)

Inductive Outcome (A : Type) :=
| Returned (a : A)
| Thrown (e : exn).
Arguments Returned {A} _.
Arguments Thrown {A} _.

Definition M (A : Type) : Type := Trace -> Outcome A * Trace.

Definition ret {A} (a : A) : M A := fun t => (Returned a, t).

Definition throw {A} (e : exn) : M A := fun t => (Thrown e, t).

Definition bind {A B} (m : M A) (k : A -> M B) : M B :=
  fun t =>
    match m t with
    | (Returned a, t') => k a t'
    | (Thrown e, t') => (Thrown e, t')
    end.

(** [try { m } catch (error) { handler error }]. *)
Definition try_catch {A} (m : M A) (handler : exn -> M A) : M A :=
  fun t =>
    match m t with
    | (Returned a, t') => (Returned a, t')
    | (Thrown e, t') => handler e t'
    end.

Declare Scope async_scope.
Delimit Scope async_scope with async.
Notation "x <- m ;; k" := (bind m (fun x => k))
  (at level 100, m at next level, right associativity) : async_scope.
Notation "m ;;; k" := (bind m (fun _ => k))
  (at level 100, right associativity) : async_scope.
Local Open Scope async_scope.

(** [await fetch(url, ...)] for a GET request answered by [api]. *)
Definition fetch {B} (api : string -> FetchOutcome B) (url : string)
  : M (Response B) :=
  match api url with
  | Rejected e => throw e
  | Resolved response => ret response
  end.

(** [await response.json()]. *)
Definition awaitJson {B} (response : Response B) : M B :=
  match json response with
  | inl e => throw e
  | inr data => ret data
  end.

(** The trace once a timer of [delay] ms has fired: the wait is the
    requested delay plus that timer's lag. *)
Definition recordSleep (env : Env) (delay : N) (t : Trace) : Trace :=
  {| posts := posts t;
     sleeps := sleeps t ++ [delay];
     waited := (waited t + delay + timer_lag env (length (sleeps t)))%N |}.

(** The trace once a POST has been sent. *)
Definition recordPost (apiUrl prompt : string) (t : Trace) : Trace :=
  {| posts := posts t ++ [(apiUrl, prompt)];
     sleeps := sleeps t;
     waited := waited t |}.

(** [await new Promise(resolve => setTimeout(resolve, delay))]. *)
Definition sleep (env : Env) (delay : N) : M unit :=
  fun t => (Returned tt, recordSleep env delay t).

(** [await fetch(apiUrl, {method: "POST", ...})] to the summarization
    endpoint: the request is recorded, the answer is that of the n-th POST. *)
Definition postGemini (env : Env) (apiUrl prompt : string)
  : M (Response GeminiData) :=
  fun t =>
    match gemini_api env (length (posts t)) with
    | Rejected e => (Thrown e, recordPost apiUrl prompt t)
    | Resolved response => (Returned response, recordPost apiUrl prompt t)
    end.

(** ** fetchGeminiSummary (lines 73-113) *)

Definition geminiUrl (key : string) : string :=
  "https://generativelanguage.googleapis.com/v1beta/models/" +:+ GEMINI_MODEL
  +:+ ":generateContent?key=" +:+ key.

Definition newline : string := String (ascii_of_nat 10) EmptyString.

Definition geminiPrompt (textToSummarize : string) : string :=
  "Summarize the following GitHub issue thread (Title, Body, and Comments) into a single, dense paragraph that captures the core problem, proposed solutions, and current status. Do not use bullet points. "
  +:+ newline +:+ newline +:+ textToSummarize.

Definition maxRetries : nat := 3.
Definition delays : list N := [1000; 2000; 4000]%N.

(** [data.candidates?.[0]?.content?.parts?.[0]?.text]. *)
Definition candidateText (data : GeminiData) : option string :=
  cs ← candidates data; c ← cs !! 0%nat; ct ← content c;
  ps ← parts ct; p ← ps !! 0%nat; text p.

(** [value || fallback] on an optional string: [undefined] and the empty
    string are falsy. *)
Definition orElse (value : option string) (fallback : string) : string :=
  match value with
  | Some (String c rest) => String c rest
  | _ => fallback
  end.

(** The body of the [try] block: one attempt. *)
Definition geminiAttempt (env : Env) (apiUrl prompt : string) : M string :=
  response <- postGemini env apiUrl prompt ;;
  if negb (ok response)
  then throw (Error ("Gemini API Error: " +:+ pretty (status response)))
  else
    data <- awaitJson response ;;
    ret (orElse (candidateText data) "Could not generate summary.").

(** The [while (retries <= maxRetries)] loop, started at a given value of
    [retries]. The recursion is on [fuel], an upper bound on the number of
    iterations still to run; [None] is the [undefined] a JavaScript function
    returns when control falls off its end. *)
Fixpoint geminiLoop (env : Env) (apiUrl prompt : string)
    (fuel retries : nat) : M (option string) :=
  if (retries <=? maxRetries)%nat then
    match fuel with
    | O => ret None
    | S fuel' =>
        try_catch
          (summary <- geminiAttempt env apiUrl prompt ;; ret (Some summary))
          (fun error =>
             if (retries =? maxRetries)%nat then throw error
             else
               sleep env (default 0%N (delays !! retries)) ;;;
               geminiLoop env apiUrl prompt fuel' (S retries))
    end
  else ret None.

Definition fetchGeminiSummary (env : Env) (textToSummarize key : string)
  : M (option string) :=
  geminiLoop env (geminiUrl key) (geminiPrompt textToSummarize)
    (S maxRetries) 0.

(** ** checkForOpenPRs (lines 384-408) *)

(** [event.source?.issue]. *)
Definition sourceIssue (ev : TimelineEvent) : option SourceIssue :=
  src ← source ev; issue src.

(** The predicate passed to [events.some]: a cross-reference whose source
    is a pull request ([pull_request] present) that is open. *)
Definition isOpenPrCrossReference (ev : TimelineEvent) : bool :=
  bool_decide (event ev = Some "cross-referenced") &&
  match si ← sourceIssue ev; pull_request si with
  | Some _ => true
  | None => false
  end &&
  bool_decide ((si ← sourceIssue ev; state si) = Some "open").

(** The request headers (the optional token) do not influence what the
    model's endpoints answer and are left out. *)
Definition checkForOpenPRs (env : Env) (i : Issue) : M bool :=
  try_catch
    (response <- fetch (timeline_api env) (url i +:+ "/timeline") ;;
     if negb (ok response) then ret false
     else
       events <- awaitJson response ;;
       ret (existsb isOpenPrCrossReference events))
    (fun e => ret false).

(** ** Component state (lines 281-324) *)

Inductive Step := input | fetching | triage | complete.

#[global] Instance Step_eq_dec : EqDecision Step.
Proof. solve_decision. Defined.

Record State := mkState {
  step : Step;
  repoUrl : string;
  ghToken : string;
  geminiKey : string;
  issues : list Issue;
  currentIndex : nat;
  currentSummary : string;
  isSummarizing : bool;
  isCheckingPr : bool;
  showExitModal : bool;
  showFinishModal : bool;
  summaryError : option string;
  scores : gmap Z ScoreEntry;
  loading : bool;
  error : option string;
  currentRating : ScoreEntry
}.

(** One setter per [useState] hook. *)
Definition setStep (v : Step) (s : State) : State :=
  {| step := v; repoUrl := repoUrl s; ghToken := ghToken s;
     geminiKey := geminiKey s; issues := issues s;
     currentIndex := currentIndex s; currentSummary := currentSummary s;
     isSummarizing := isSummarizing s; isCheckingPr := isCheckingPr s;
     showExitModal := showExitModal s;
     showFinishModal := showFinishModal s; summaryError := summaryError s;
     scores := scores s; loading := loading s; error := error s;
     currentRating := currentRating s |}.

Definition setRepoUrl (v : string) (s : State) : State :=
  {| step := step s; repoUrl := v; ghToken := ghToken s;
     geminiKey := geminiKey s; issues := issues s;
     currentIndex := currentIndex s; currentSummary := currentSummary s;
     isSummarizing := isSummarizing s; isCheckingPr := isCheckingPr s;
     showExitModal := showExitModal s;
     showFinishModal := showFinishModal s; summaryError := summaryError s;
     scores := scores s; loading := loading s; error := error s;
     currentRating := currentRating s |}.

Definition setGhToken (v : string) (s : State) : State :=
  {| step := step s; repoUrl := repoUrl s; ghToken := v;
     geminiKey := geminiKey s; issues := issues s;
     currentIndex := currentIndex s; currentSummary := currentSummary s;
     isSummarizing := isSummarizing s; isCheckingPr := isCheckingPr s;
     showExitModal := showExitModal s;
     showFinishModal := showFinishModal s; summaryError := summaryError s;
     scores := scores s; loading := loading s; error := error s;
     currentRating := currentRating s |}.

Definition setGeminiKey (v : string) (s : State) : State :=
  {| step := step s; repoUrl := repoUrl s; ghToken := ghToken s;
     geminiKey := v; issues := issues s; currentIndex := currentIndex s;
     currentSummary := currentSummary s; isSummarizing := isSummarizing s;
     isCheckingPr := isCheckingPr s; showExitModal := showExitModal s;
     showFinishModal := showFinishModal s; summaryError := summaryError s;
     scores := scores s; loading := loading s; error := error s;
     currentRating := currentRating s |}.

Definition setIssues (v : list Issue) (s : State) : State :=
  {| step := step s; repoUrl := repoUrl s; ghToken := ghToken s;
     geminiKey := geminiKey s; issues := v; currentIndex := currentIndex s;
     currentSummary := currentSummary s; isSummarizing := isSummarizing s;
     isCheckingPr := isCheckingPr s; showExitModal := showExitModal s;
     showFinishModal := showFinishModal s; summaryError := summaryError s;
     scores := scores s; loading := loading s; error := error s;
     currentRating := currentRating s |}.

Definition setCurrentIndex (v : nat) (s : State) : State :=
  {| step := step s; repoUrl := repoUrl s; ghToken := ghToken s;
     geminiKey := geminiKey s; issues := issues s; currentIndex := v;
     currentSummary := currentSummary s; isSummarizing := isSummarizing s;
     isCheckingPr := isCheckingPr s; showExitModal := showExitModal s;
     showFinishModal := showFinishModal s; summaryError := summaryError s;
     scores := scores s; loading := loading s; error := error s;
     currentRating := currentRating s |}.

Definition setCurrentSummary (v : string) (s : State) : State :=
  {| step := step s; repoUrl := repoUrl s; ghToken := ghToken s;
     geminiKey := geminiKey s; issues := issues s;
     currentIndex := currentIndex s; currentSummary := v;
     isSummarizing := isSummarizing s; isCheckingPr := isCheckingPr s;
     showExitModal := showExitModal s;
     showFinishModal := showFinishModal s; summaryError := summaryError s;
     scores := scores s; loading := loading s; error := error s;
     currentRating := currentRating s |}.

Definition setIsSummarizing (v : bool) (s : State) : State :=
  {| step := step s; repoUrl := repoUrl s; ghToken := ghToken s;
     geminiKey := geminiKey s; issues := issues s;
     currentIndex := currentIndex s; currentSummary := currentSummary s;
     isSummarizing := v; isCheckingPr := isCheckingPr s;
     showExitModal := showExitModal s;
     showFinishModal := showFinishModal s; summaryError := summaryError s;
     scores := scores s; loading := loading s; error := error s;
     currentRating := currentRating s |}.

Definition setIsCheckingPr (v : bool) (s : State) : State :=
  {| step := step s; repoUrl := repoUrl s; ghToken := ghToken s;
     geminiKey := geminiKey s; issues := issues s;
     currentIndex := currentIndex s; currentSummary := currentSummary s;
     isSummarizing := isSummarizing s; isCheckingPr := v;
     showExitModal := showExitModal s;
     showFinishModal := showFinishModal s; summaryError := summaryError s;
     scores := scores s; loading := loading s; error := error s;
     currentRating := currentRating s |}.

Definition setShowExitModal (v : bool) (s : State) : State :=
  {| step := step s; repoUrl := repoUrl s; ghToken := ghToken s;
     geminiKey := geminiKey s; issues := issues s;
     currentIndex := currentIndex s; currentSummary := currentSummary s;
     isSummarizing := isSummarizing s; isCheckingPr := isCheckingPr s;
     showExitModal := v; showFinishModal := showFinishModal s;
     summaryError := summaryError s; scores := scores s;
     loading := loading s; error := error s;
     currentRating := currentRating s |}.

Definition setShowFinishModal (v : bool) (s : State) : State :=
  {| step := step s; repoUrl := repoUrl s; ghToken := ghToken s;
     geminiKey := geminiKey s; issues := issues s;
     currentIndex := currentIndex s; currentSummary := currentSummary s;
     isSummarizing := isSummarizing s; isCheckingPr := isCheckingPr s;
     showExitModal := showExitModal s; showFinishModal := v;
     summaryError := summaryError s; scores := scores s;
     loading := loading s; error := error s;
     currentRating := currentRating s |}.

Definition setSummaryError (v : option string) (s : State) : State :=
  {| step := step s; repoUrl := repoUrl s; ghToken := ghToken s;
     geminiKey := geminiKey s; issues := issues s;
     currentIndex := currentIndex s; currentSummary := currentSummary s;
     isSummarizing := isSummarizing s; isCheckingPr := isCheckingPr s;
     showExitModal := showExitModal s;
     showFinishModal := showFinishModal s; summaryError := v;
     scores := scores s; loading := loading s; error := error s;
     currentRating := currentRating s |}.

Definition setScores (v : gmap Z ScoreEntry) (s : State) : State :=
  {| step := step s; repoUrl := repoUrl s; ghToken := ghToken s;
     geminiKey := geminiKey s; issues := issues s;
     currentIndex := currentIndex s; currentSummary := currentSummary s;
     isSummarizing := isSummarizing s; isCheckingPr := isCheckingPr s;
     showExitModal := showExitModal s;
     showFinishModal := showFinishModal s; summaryError := summaryError s;
     scores := v; loading := loading s; error := error s;
     currentRating := currentRating s |}.

Definition setLoading (v : bool) (s : State) : State :=
  {| step := step s; repoUrl := repoUrl s; ghToken := ghToken s;
     geminiKey := geminiKey s; issues := issues s;
     currentIndex := currentIndex s; currentSummary := currentSummary s;
     isSummarizing := isSummarizing s; isCheckingPr := isCheckingPr s;
     showExitModal := showExitModal s;
     showFinishModal := showFinishModal s; summaryError := summaryError s;
     scores := scores s; loading := v; error := error s;
     currentRating := currentRating s |}.

Definition setError (v : option string) (s : State) : State :=
  {| step := step s; repoUrl := repoUrl s; ghToken := ghToken s;
     geminiKey := geminiKey s; issues := issues s;
     currentIndex := currentIndex s; currentSummary := currentSummary s;
     isSummarizing := isSummarizing s; isCheckingPr := isCheckingPr s;
     showExitModal := showExitModal s;
     showFinishModal := showFinishModal s; summaryError := summaryError s;
     scores := scores s; loading := loading s; error := v;
     currentRating := currentRating s |}.

Definition setCurrentRating (v : ScoreEntry) (s : State) : State :=
  {| step := step s; repoUrl := repoUrl s; ghToken := ghToken s;
     geminiKey := geminiKey s; issues := issues s;
     currentIndex := currentIndex s; currentSummary := currentSummary s;
     isSummarizing := isSummarizing s; isCheckingPr := isCheckingPr s;
     showExitModal := showExitModal s;
     showFinishModal := showFinishModal s; summaryError := summaryError s;
     scores := scores s; loading := loading s; error := error s;
     currentRating := v |}.

(** The state the component is mounted with; the three settings come from
    local storage. *)
Definition blankRating : ScoreEntry :=
  {| ambiguity := ""; scale := ""; novelty := ""; type := "";
     issueNumber := None; entryTitle := None; entryUrl := None |}.

Definition initialState (storedRepoUrl storedGhToken storedGeminiKey : string)
  : State :=
  {| step := input; repoUrl := storedRepoUrl; ghToken := storedGhToken;
     geminiKey := storedGeminiKey; issues := []; currentIndex := 0;
     currentSummary := ""; isSummarizing := false; isCheckingPr := false;
     showExitModal := false; showFinishModal := false; summaryError := None;
     scores := ∅; loading := false; error := None;
     currentRating := blankRating |}.

(** ** handleFetchIssues (lines 328-381) *)

Definition hexDigit (n : N) : ascii :=
  ascii_of_N (if (n <? 10)%N then 48 + n else 55 + n).

Definition isUnreserved (c : ascii) : bool :=
  let n := N_of_ascii c in
  ((65 <=? n) && (n <=? 90) || (97 <=? n) && (n <=? 122) ||
   (48 <=? n) && (n <=? 57))%N ||
  existsb (Ascii.eqb c) (list_ascii_of_string "-_.!~*'()").

(** [encodeURIComponent], byte by byte over the UTF-8 encoding. *)
Fixpoint encodeURIComponent (s : string) : string :=
  match s with
  | EmptyString => EmptyString
  | String c rest =>
      if isUnreserved c then String c (encodeURIComponent rest)
      else
        let n := N_of_ascii c in
        String "%" (String (hexDigit (n / 16)) (String (hexDigit (n mod 16))
          (encodeURIComponent rest)))
  end.

(** A template-literal hole filled with a possibly undefined string. *)
Definition interpolate (v : option string) : string :=
  default "undefined" v.

Definition searchUrl (repoData : RepoData) : string :=
  let query := "repo:" +:+ interpolate (owner repoData) +:+ "/"
               +:+ interpolate (repo repoData)
               +:+ " is:issue is:open -linked:pr" in
  "https://api.github.com/search/issues?q=" +:+ encodeURIComponent query
  +:+ "&sort=created&order=asc&per_page=100".

(** [err.message]. *)
Definition message (e : exn) : string :=
  match e with
  | Error m | NetworkError m | SyntaxError m | TypeError m => m
  end.

Definition handleFetchIssues (env : Env) (s : State) : M State :=
  let s1 := setLoading true (setError None s) in
  match parseRepoUrl (repoUrl s) with
  | None =>
      ret (setLoading false (setError
        (Some "Invalid GitHub URL. Please use format: https://github.com/owner/repo")
        s1))
  | Some repoData =>
      s2 <- try_catch
        (response <- fetch (search_api env) (searchUrl repoData) ;;
         if negb (ok response) then
           if (status response =? 403)%N then
             throw (Error "GitHub API Rate Limit exceeded. Please provide a Token.")
           else if (status response =? 404)%N then
             throw (Error "Repository not found.")
           else if (status response =? 422)%N then
             throw (Error "Validation Failed. Please check the URL.")
           else throw (Error ("GitHub API Error: " +:+ pretty (status response)))
         else
           data <- awaitJson response ;;
           let pureIssues := default [] (items data) in
           if (length pureIssues =? 0)%nat then
             throw (Error "No open issues (without linked PRs) found in this repository.")
           else
             ret (setCurrentIndex 0 (setStep triage (setIssues pureIssues s1))))
        (fun err => ret (setError (Some (message err)) s1)) ;;
      ret (setLoading false s2)
  end.

(** ** generateSummaryForIssue (lines 446-483) *)

(** The lines appended by [comments.forEach]. *)
Fixpoint commentLines (comments : list Comment) : string :=
  match comments with
  | [] => EmptyString
  | c :: rest =>
      "- User " +:+ login c +:+ ": " +:+ commentBody c +:+ newline
      +:+ commentLines rest
  end.

Definition fullText (i : Issue) (comments : list Comment) : string :=
  let base := "Title: " +:+ title i +:+ newline +:+ newline +:+ "Body:"
              +:+ newline +:+ orElse (body i) "No description provided."
              +:+ newline +:+ newline in
  if (0 <? length comments)%nat
  then base +:+ "Comments:" +:+ newline +:+ commentLines comments
  else base.

Definition summaryFailureText : string :=
  "Failed to generate summary. You may need to read the raw issue.".

(** The step as one call, its answer landing on the state the call
    started from. *)
Definition generateSummaryForIssue (env : Env) (i : Issue) (s : State)
  : M State :=
  let s1 := setCurrentSummary "" (setSummaryError None
              (setIsSummarizing true s)) in
  s2 <- try_catch
    (commentsResp <- fetch (comments_api env) (comments_url i) ;;
     comments <- (if ok commentsResp then awaitJson commentsResp
                  else ret []) ;;
     summary <- fetchGeminiSummary env (fullText i comments) (geminiKey s) ;;
     ret (setCurrentSummary (orElse summary "") s1))
    (fun err => ret (setSummaryError (Some summaryFailureText) s1)) ;;
  ret (setIsSummarizing false s2).

(** ** The issue lifecycle effect (lines 411-444) *)

(** [currentIndex < issues.length - 1], computed on integers as JavaScript
    does (the right-hand side is -1 for an empty list). *)
Definition hasNext (s : State) : bool :=
  (Z.of_nat (currentIndex s) <? Z.of_nat (length (issues s)) - 1)%Z.

(** The branch taken when the issue has an open pull request: move on, or
    finish at the end of the batch. No score is written. *)
Definition skipIssue (s : State) : State :=
  if hasNext s then setCurrentIndex (currentIndex s + 1) s
  else setStep complete s.

Definition processCurrentIssue (env : Env) (cur : Issue) (s : State)
  : M State :=
  let s1 := setCurrentSummary "" (setSummaryError None
              (setCurrentRating blankRating s)) in
  let s2 := setIsCheckingPr true s1 in
  hasOpenPr <- checkForOpenPRs env cur ;;
  let s3 := setIsCheckingPr false s2 in
  if hasOpenPr then ret (skipIssue s3)
  else generateSummaryForIssue env cur s3.

(** Whether one of the effect's dependencies [currentIndex, step, issues]
    differs between two renders. Every update that replaces [issues] also
    changes [step], so comparing the other two is enough. *)
Definition depsChanged (before after : State) : bool :=
  negb (bool_decide (currentIndex before = currentIndex after)) ||
  negb (bool_decide (step before = step after)).

(** The effect, re-run for as long as its own state updates change its
    dependencies. Each re-run either leaves the triage step or has moved the
    index forward, so [fuel] bounds the remaining runs. *)
Fixpoint issueLifecycle (env : Env) (fuel : nat) (s : State) : M State :=
  match step s, issues s !! currentIndex s with
  | triage, Some cur =>
      match fuel with
      | O => ret s
      | S fuel' =>
          s' <- processCurrentIssue env cur s ;;
          if depsChanged s s' then issueLifecycle env fuel' s' else ret s'
      end
  | _, _ => ret s
  end.

Definition runEffect (env : Env) (s : State) : M State :=
  issueLifecycle env (length (issues s) - currentIndex s) s.

(** ** handleNext (lines 485-516) *)

(** [{...currentRating, issueNumber, title, url: html_url}]. *)
Definition newEntry (rating : ScoreEntry) (cur : Issue) : ScoreEntry :=
  {| ambiguity := ambiguity rating; scale := scale rating;
     novelty := novelty rating; type := type rating;
     issueNumber := Some (number cur); entryTitle := Some (title cur);
     entryUrl := Some (html_url cur) |}.

(** [{...scores, [issue.number]: newEntry}]. *)
Definition commit (scores : gmap Z ScoreEntry) (cur : Issue)
    (rating : ScoreEntry) : gmap Z ScoreEntry :=
  <[number cur := newEntry rating cur]> scores.

(** [Object.values(scores)]; only the number of values that pass a filter
    is ever taken, so their order is immaterial here. *)
Definition values (scores : gmap Z ScoreEntry) : list ScoreEntry :=
  snd <$> map_to_list scores.

(** [Object.values(scores).filter(isValidScore).length]. *)
Definition validCount (scores : gmap Z ScoreEntry) : nat :=
  length (List.filter isValidScore (values scores)).

(** Reading [issues[currentIndex].number] throws when there is no current
    issue, before any state is set: the result is then [None]. *)
Definition handleNext (s : State) : option State :=
  match issues s !! currentIndex s with
  | None => None
  | Some cur =>
      let newScores := commit (scores s) cur (currentRating s) in
      let s1 := setScores newScores s in
      if (TARGET_ISSUE_COUNT <=? validCount newScores)%nat
      then Some (setStep complete s1)
      else if hasNext s then Some (setCurrentIndex (currentIndex s + 1) s1)
      else Some (setStep complete s1)
  end.

(** [isRatingComplete] (lines 559-563): all four fields are non-empty. *)
Definition truthy (v : string) : bool :=
  match v with EmptyString => false | String _ _ => true end.

Definition isRatingComplete (s : State) : bool :=
  truthy (ambiguity (currentRating s)) && truthy (scale (currentRating s)) &&
  truthy (novelty (currentRating s)) && truthy (type (currentRating s)).

(** ** Modal and button handlers (lines 676-700, 808-834, 910-915) *)

(** [onConfirm] of the exit modal. *)
Definition confirmExit (s : State) : State :=
  setScores ∅ (setIssues [] (setStep input (setShowExitModal false s))).

(** [onConfirm] of the finish-early modal. *)
Definition confirmFinish (s : State) : State :=
  setStep complete (setShowFinishModal false s).

(** [onClick] of "Start New Session". *)
Definition startNewSession (s : State) : State :=
  setScores ∅ (setRepoUrl "" (setIssues [] (setStep input s))).

Inductive RatingField := Ambiguity | Scale | Novelty | Classification.

(** [setCurrentRating(prev => ({...prev, field: val}))]. *)
Definition editRating (field : RatingField) (val : string) (s : State)
  : State :=
  let r := currentRating s in
  setCurrentRating
    match field with
    | Ambiguity =>
        {| ambiguity := val; scale := scale r; novelty := novelty r;
           type := type r; issueNumber := issueNumber r;
           entryTitle := entryTitle r; entryUrl := entryUrl r |}
    | Scale =>
        {| ambiguity := ambiguity r; scale := val; novelty := novelty r;
           type := type r; issueNumber := issueNumber r;
           entryTitle := entryTitle r; entryUrl := entryUrl r |}
    | Novelty =>
        {| ambiguity := ambiguity r; scale := scale r; novelty := val;
           type := type r; issueNumber := issueNumber r;
           entryTitle := entryTitle r; entryUrl := entryUrl r |}
    | Classification =>
        {| ambiguity := ambiguity r; scale := scale r; novelty := novelty r;
           type := val; issueNumber := issueNumber r;
           entryTitle := entryTitle r; entryUrl := entryUrl r |}
    end s.

(** ** The session as a transition system *)

(** Everything that updates the component state: what the operator can do,
    and the places where the asynchronous code sets the step or reports
    back (the search failing or its result arriving, the PR check deciding
    to skip). *)
Inductive Action :=
| EditRepoUrl (v : string)
| EditGhToken (v : string)
| EditGeminiKey (v : string)
| ClickStart
| FetchFailed (reason : string)
| IssuesFetched (pureIssues : list Issue)
| PrCheckSkips
| EditRating (field : RatingField) (val : string)
| ClickNext
| OpenExitModal
| CancelExit
| ConfirmExit
| OpenFinishModal
| CancelFinish
| ConfirmFinish
| StartNewSession.

#[global] Instance RatingField_eq_dec : EqDecision RatingField.
Proof. solve_decision. Defined.

(** The state update each action performs. [handleNext] throws at its
    first line, before any setter, when there is no current issue: the
    state is then unchanged. (The button that calls it is on the triage
    screen, which renders only with a current issue, see [renders].) *)
Definition update (a : Action) (s : State) : State :=
  match a with
  | EditRepoUrl v => setRepoUrl v s
  | EditGhToken v => setGhToken v s
  | EditGeminiKey v => setGeminiKey v s
  | ClickStart => setLoading true (setError None s)
  | FetchFailed reason => setLoading false (setError (Some reason) s)
  | IssuesFetched pureIssues =>
      setLoading false
        (setCurrentIndex 0 (setStep triage (setIssues pureIssues s)))
  | PrCheckSkips => skipIssue (setIsCheckingPr false s)
  | EditRating field val => editRating field val s
  | ClickNext => default s (handleNext s)
  | OpenExitModal => setShowExitModal true s
  | CancelExit => setShowExitModal false s
  | ConfirmExit => confirmExit s
  | OpenFinishModal => setShowFinishModal true s
  | CancelFinish => setShowFinishModal false s
  | ConfirmFinish => confirmFinish s
  | StartNewSession => startNewSession s
  end.

(** When an action can happen: the controls are rendered by step (lines
    938-940), the start button is disabled while loading or without a URL
    and key, the triage screen needs a current issue to render, "Next
    Issue" is disabled until the rating is complete and while the PR check
    runs, the modals' confirm buttons exist while the modal is open, the
    search result is only installed when it is non-empty, and the skip
    branch, taken in the render that started the PR check, runs inside the
    effect, which is guarded by the triage step and a current issue. (A
    verdict that arrives after the operator has moved on finds another
    state: that is [lateSkip], further down.) *)
Definition enabled (a : Action) (s : State) : bool :=
  match a with
  | EditRepoUrl _ | EditGhToken _ | EditGeminiKey _ | FetchFailed _ =>
      bool_decide (step s = input)
  | ClickStart =>
      bool_decide (step s = input) && negb (loading s) &&
      truthy (repoUrl s) && truthy (geminiKey s)
  | IssuesFetched pureIssues =>
      bool_decide (step s = input) && negb (length pureIssues =? 0)%nat
  | StartNewSession => bool_decide (step s = complete)
  | PrCheckSkips | EditRating _ _ | OpenExitModal | OpenFinishModal
  | CancelExit | CancelFinish =>
      bool_decide (step s = triage) &&
      bool_decide (is_Some (issues s !! currentIndex s))
  | ClickNext =>
      bool_decide (step s = triage) &&
      bool_decide (is_Some (issues s !! currentIndex s)) &&
      isRatingComplete s && negb (isCheckingPr s)
  | ConfirmExit =>
      bool_decide (step s = triage) &&
      bool_decide (is_Some (issues s !! currentIndex s)) && showExitModal s
  | ConfirmFinish =>
      bool_decide (step s = triage) &&
      bool_decide (is_Some (issues s !! currentIndex s)) && showFinishModal s
  end.

(** An operator action followed by the effect, which React re-runs when the
    action changed one of its dependencies. The effect is run to its end
    here, as for an operator who waits for the screen to settle; the events
    one at a time are [astep], further down. *)
Definition dispatch (env : Env) (a : Action) (s : State) : M State :=
  let s' := update a s in
  if depsChanged s s' then runEffect env s' else ret s'.



(** ** Vocabulary for the statements *)

(** What one attempt of the summarizer makes of the endpoint's answer: the
    error it throws, or the summary it returns. *)
Definition attemptResult (answer : FetchOutcome GeminiData) : exn + string :=
  match answer with
  | Rejected e => inl e
  | Resolved response =>
      if negb (ok response)
      then inl (Error ("Gemini API Error: " +:+ pretty (status response)))
      else match json response with
           | inl e => inl e
           | inr data =>
               inr (orElse (candidateText data) "Could not generate summary.")
           end
  end.

Definition failed {A} (r : exn + A) : Prop :=
  match r with inl _ => True | inr _ => False end.

(** A request that fails: rejected in transport, answered with a non-ok
    status, or answered with a body that does not parse. *)
Definition requestFailed {B} (answer : FetchOutcome B) : Prop :=
  (exists e, answer = Rejected e) \/
  (exists response,
     answer = Resolved response /\
     (ok response = false \/ exists e, json response = inl e)).

(** The verdict of the PR-liveness check on an issue (the check leaves no
    mark on the trace, see [checkForOpenPRs_run]). *)
Definition hasOpenPr (env : Env) (i : Issue) : bool :=
  match checkForOpenPRs env i emptyTrace with
  | (Returned b, _) => b
  | (Thrown _, _) => false
  end.

(** The state [generateSummaryForIssue] starts from, and the state it ends
    in given how the summarizer call went (or that it was not reached). *)
Definition summarizing (s : State) : State :=
  setCurrentSummary "" (setSummaryError None (setIsSummarizing true s)).

Definition summarized (r : Outcome (option string)) (s : State) : State :=
  setIsSummarizing false
    match r with
    | Returned summary => setCurrentSummary (orElse summary "") (summarizing s)
    | Thrown _ => setSummaryError (Some summaryFailureText) (summarizing s)
    end.

(** The state in which [processCurrentIssue] takes its decision: the
    interface reset for the new issue, the PR check started and finished. *)
Definition checked (s : State) : State :=
  setIsCheckingPr false (setIsCheckingPr true
    (setCurrentSummary "" (setSummaryError None
       (setCurrentRating blankRating s)))).


(** Filling in the four controls, then "Next Issue". *)
Definition rateAndNext (ty a sc n : string) : list Action :=
  [EditRating Classification ty; EditRating Ambiguity a;
   EditRating Scale sc; EditRating Novelty n; ClickNext].

(** ** Sample data *)

Definition sampleIssue (n : Z) (name : string) : Issue :=
  {| number := n; title := name; body := None;
     html_url := "https://github.com/acme/widget/issues/" +:+ pretty n;
     created_at := "2024-01-01T00:00:00Z";
     comments_url := "https://api.github.com/repos/acme/widget/issues/"
                     +:+ pretty n +:+ "/comments";
     url := "https://api.github.com/repos/acme/widget/issues/" +:+ pretty n |}.

Definition issue1 : Issue := sampleIssue 1 "Crash on start".
Definition issue2 : Issue := sampleIssue 2 "Typo in README".
Definition issue3 : Issue := sampleIssue 3 "Add dark mode".

Definition openPrReference : TimelineEvent :=
  {| event := Some "cross-referenced";
     source := Some {| issue := Some
       {| pull_request := Some {| pr_html_url := "https://github.com/acme/widget/pull/9" |};
          state := Some "open" |} |} |}.

Definition summaryBody (s : string) : GeminiData :=
  {| candidates := Some [ {| content := Some
       {| parts := Some [ {| text := Some s |} ] |} |} ] |}.

(** Three open issues, an open pull request referencing the second one, no
    comments, and a summarizer that fails three times before answering. *)
Definition sampleEnv : Env :=
  {| search_api := fun _ =>
       Resolved (mkResponse 200
         (inr {| items := Some [issue1; issue2; issue3] |}));
     timeline_api := fun u =>
       if String.eqb u (url issue2 +:+ "/timeline")
       then Resolved (mkResponse 200 (inr [openPrReference]))
       else Resolved (mkResponse 200 (inr []));
     comments_api := fun _ => Resolved (mkResponse 200 (inr []));
     gemini_api := fun n =>
       if (n <? 3)%nat then Resolved (mkResponse 503 (inl (SyntaxError "")))
       else Resolved (mkResponse 200 (inr (summaryBody "A summary.")));
     timer_lag := fun _ => 3%N |}.

(** The same world with a summarizer that never answers. *)
Definition downEnv : Env :=
  {| search_api := search_api sampleEnv;
     timeline_api := timeline_api sampleEnv;
     comments_api := comments_api sampleEnv;
     gemini_api := fun _ => Rejected (NetworkError "Failed to fetch");
     timer_lag := timer_lag sampleEnv |}.

(** The same world with an unreachable comments endpoint and a summarizer
    that answers at once. *)
Definition noCommentsEnv : Env :=
  {| search_api := search_api sampleEnv;
     timeline_api := timeline_api sampleEnv;
     comments_api := fun _ => Rejected (NetworkError "Failed to fetch");
     gemini_api := fun _ =>
       Resolved (mkResponse 200 (inr (summaryBody "A summary.")));
     timer_lag := timer_lag sampleEnv |}.

(** The same world with a comments endpoint answering 500. *)
Definition commentsErrorEnv : Env :=
  {| search_api := search_api sampleEnv;
     timeline_api := timeline_api sampleEnv;
     comments_api := fun _ =>
       Resolved (mkResponse 500 (inl (SyntaxError "")));
     gemini_api := gemini_api noCommentsEnv;
     timer_lag := timer_lag sampleEnv |}.

Definition sampleRating : ScoreEntry :=
  {| ambiguity := "3"; scale := "x"; novelty := "5"; type := "fix";
     issueNumber := None; entryTitle := None; entryUrl := None |}.

Definition otherRating : ScoreEntry :=
  {| ambiguity := "1"; scale := "2"; novelty := "4"; type := "docs";
     issueNumber := None; entryTitle := None; entryUrl := None |}.

(** In triage on the first of the three issues, rating filled in. *)
Definition ratingFirst : State :=
  setCurrentRating sampleRating
    (setCurrentIndex 0 (setStep triage (setIssues [issue1; issue2; issue3]
       (initialState "https://github.com/acme/widget" "" "key")))).


(** The first issue rated and committed; the same issue brought up again
    with another rating, and committed again. *)
Definition ratedFirst : State := default ratingFirst (handleNext ratingFirst).

Definition reratingFirst : State :=
  setCurrentRating otherRating (setCurrentIndex 0 ratedFirst).

Definition reratedFirst : State :=
  default reratingFirst (handleNext reratingFirst).


(** ** handleDownloadCSV (lines 518-557): the document that is offered *)

(** The double-quote character. *)
Definition dquote : ascii := ascii_of_nat 34.

(** The global [replace] applied to the title: every double quote is
    written twice. *)
Fixpoint doubleQuotes (s : string) : string :=
  match s with
  | EmptyString => EmptyString
  | String c rest =>
      if Ascii.eqb c dquote
      then String dquote (String dquote (doubleQuotes rest))
      else String c (doubleQuotes rest)
  end.

(** The template literal around [s.title?.replace(...)]: an absent title
    is interpolated as the text "undefined". *)
Definition quotedTitle (t : option string) : string :=
  String dquote (interpolate (doubleQuotes <$> t) +:+ String dquote EmptyString).

(** How [Array.prototype.join] prints an element that may be undefined:
    as the empty string. *)
Definition cell (v : option string) : string := default "" v.

Definition csvHeaders : list string :=
  ["Issue Number"; "Title"; "URL"; "Type"; "Ambiguity"; "Scale"; "Novelty";
   "Is Scored (Not X)"].

(** One element of [rows]. The issue number is printed with its decimal
    digits, as JavaScript prints an integer below 2^53 in absolute
    value. *)
Definition csvRow (s : ScoreEntry) : list string :=
  [cell (pretty <$> issueNumber s); quotedTitle (entryTitle s);
   cell (entryUrl s); type s; ambiguity s; scale s; novelty s;
   if isValidScore s then "Yes" else "No"].

(** [csvContent], from the list that [Object.values(scores)] gives. *)
Definition csvContent (entries : list ScoreEntry) : string :=
  join (ascii_of_nat 10)
    (join "," csvHeaders :: map (fun s => join "," (csvRow s)) entries).

(** A reader for one quoted CSV field (RFC 4180): what stands between the
    outer quotes, with each doubled quote read as one; [None] when the text
    is not a well-formed quoted field. Used only to state that the writer
    above loses nothing. *)
Fixpoint readQuotedBody (s : string) : option string :=
  match s with
  | EmptyString => None
  | String c rest =>
      if Ascii.eqb c dquote then
        match rest with
        | EmptyString => Some EmptyString
        | String d rest' =>
            if Ascii.eqb d dquote then String dquote <$> readQuotedBody rest'
            else None
        end
      else String c <$> readQuotedBody rest
  end.

Definition readQuotedField (s : string) : option string :=
  match s with
  | String c rest => if Ascii.eqb c dquote then readQuotedBody rest else None
  | EmptyString => None
  end.

(** ** What the controls offer (lines 205-277) *)

(** [options] of [RatingInput]. *)
Definition ratingOptions : list string := ["x"; "1"; "2"; "3"; "4"; "5"].

(** The values an edit can carry: a rating button gives one of
    [ratingOptions], the classification menu one of [ISSUE_TYPES] (its
    empty placeholder is disabled). *)
Definition offered (a : Action) : bool :=
  match a with
  | EditRating Classification val => includes ISSUE_TYPES val
  | EditRating _ val => includes ratingOptions val
  | _ => true
  end.

(** The actions the operator performs, as opposed to the state updates
    made by the asynchronous code. *)
Definition isOperatorAction (a : Action) : bool :=
  match a with
  | ClickStart | FetchFailed _ | IssuesFetched _ | PrCheckSkips => false
  | _ => true
  end.

(** A draft rating as the controls can leave it: each score is still empty
    or one of the options, the classification empty or one of the types. *)
Definition draftWellFormed (r : ScoreEntry) : Prop :=
  ambiguity r ∈ "" :: ratingOptions /\
  scale r ∈ "" :: ratingOptions /\
  novelty r ∈ "" :: ratingOptions /\
  type r ∈ "" :: ISSUE_TYPES.

(** A committed entry: made by [newEntry] from a fully filled rating and
    the issue at some index. *)
Definition committedFrom (s : State) (k : Z) (e : ScoreEntry) : Prop :=
  exists j cur r,
    j <= currentIndex s /\
    issues s !! j = Some cur /\
    number cur = k /\
    e = newEntry r cur /\
    ambiguity r ∈ ratingOptions /\ scale r ∈ ratingOptions /\
    novelty r ∈ ratingOptions /\ type r ∈ ISSUE_TYPES.

(** What holds of every state of a session. *)
Definition sessionInvariant (s : State) : Prop :=
  step s <> fetching /\
  (step s = input -> scores s = ∅) /\
  (step s = triage ->
     is_Some (issues s !! currentIndex s) /\
     validCount (scores s) < TARGET_ISSUE_COUNT) /\
  validCount (scores s) <= TARGET_ISSUE_COUNT /\
  draftWellFormed (currentRating s) /\
  (forall k e, scores s !! k = Some e -> committedFrom s k e).

(** The part of the state the invariant speaks about. *)
Definition core (s : State)
  : Step * list Issue * nat * gmap Z ScoreEntry * ScoreEntry :=
  (step s, issues s, currentIndex s, scores s, currentRating s).

(** ** Decoding a percent-escape (used to state that the encoding loses
    nothing) *)

Definition hexValue (c : ascii) : N :=
  let n := N_of_ascii c in
  if (n <? 58)%N then n - 48 else n - 55.

(** The component as mounted in the sample world. *)
Definition mounted : State :=
  initialState "https://github.com/acme/widget" "" "key".

(** A world whose summarizer answers ok with a body that holds no
    candidate. *)
Definition emptyAnswerEnv : Env :=
  {| search_api := search_api sampleEnv;
     timeline_api := timeline_api sampleEnv;
     comments_api := comments_api sampleEnv;
     gemini_api := fun _ =>
       Resolved (mkResponse 200 (inr {| candidates := None |}));
     timer_lag := timer_lag sampleEnv |}.

(** A committed entry whose title holds a quotation. *)
Definition quotingEntry : ScoreEntry :=
  newEntry sampleRating
    (sampleIssue 7 ("Fix " +:+ String dquote ("bug" +:+ String dquote ""))).

(** ** The session with answers that arrive late *)

(** The functions above run each asynchronous call to its end before
    anything else happens. In the component nothing cancels a call: while
    the PR check, the summary or the search is awaited the operator can
    act, and the awaited answer then sets the state of that later moment.
    What follows describes the component one event at a time. State
    setters called in one synchronous stretch take effect together, before
    the next render. *)

(** The skip branch of the effect (lines 424-435) as it lands: the test
    [currentIndex < issues.length - 1] reads the issue list and index the
    effect's closure captured when it started, while the setters act on
    the state of the moment ([prev => prev + 1]). *)
Definition lateSkip (issues0 : list Issue) (index0 : nat) (s : State)
  : State :=
  let s1 := setIsCheckingPr false s in
  if (Z.of_nat index0 <? Z.of_nat (length issues0) - 1)%Z
  then setCurrentIndex (currentIndex s1 + 1) s1
  else setStep complete s1.

(** The end of [generateSummaryForIssue] (lines 474-481) as it lands: one
    of the two texts is set, and the spinner is cleared. *)
Definition summaryAnswer (r : Outcome (option string)) (s : State) : State :=
  setIsSummarizing false
    match r with
    | Returned summary => setCurrentSummary (orElse summary "") s
    | Thrown _ => setSummaryError (Some summaryFailureText) s
    end.

(** What [generateSummaryForIssue] awaits inside its [try] block: the
    comments, then the summarizer. *)
Definition summaryCall (env : Env) (i : Issue) (key : string)
  : M (option string) :=
  commentsResp <- fetch (comments_api env) (comments_url i) ;;
  comments <- (if ok commentsResp then awaitJson commentsResp else ret []) ;;
  fetchGeminiSummary env (fullText i comments) key.

(** A call that has been started and not yet answered. A PR check keeps
    the issue list and the index of the render that started it. *)
Inductive Task :=
| SearchTask
| CheckTask (issues0 : list Issue) (index0 : nat) (cur : Issue)
| SummaryTask (cur : Issue).

(** The component at one moment: its state and the calls in flight. *)
Record Config := mkConfig {
  ui : State;
  tasks : list Task
}.

(** [renderTriageStep] reads [issue.title] of [issues[currentIndex]] (lines
    671, 723): without a current issue the triage screen throws while
    rendering, and the component is gone. The other two screens do not
    look at the issue list. *)
Definition renders (s : State) : bool :=
  match step s with
  | triage => bool_decide (is_Some (issues s !! currentIndex s))
  | _ => true
  end.

(** The state in which the effect awaits the verdict of the PR check
    (lines 415-421). *)
Definition effectStarted (s : State) : State :=
  setIsCheckingPr true
    (setCurrentSummary "" (setSummaryError None
       (setCurrentRating blankRating s))).

(** What happens after a render: when a dependency of the effect changed
    and the guard of line 412 holds, the effect resets the interface for
    the new issue and starts the PR check, capturing the issue list and the
    index of that render. *)
Definition startEffect (before after : State) (pending : list Task)
  : Config :=
  if depsChanged before after then
    match step after, issues after !! currentIndex after with
    | triage, Some cur =>
        {| ui := effectStarted after;
           tasks := pending ++
                    [CheckTask (issues after) (currentIndex after) cur] |}
    | _, _ => {| ui := after; tasks := pending |}
    end
  else {| ui := after; tasks := pending |}.

Inductive Event :=
| Does (a : Action)
| PressStart
| SearchAnswers (result : string + list Issue)
| CheckAnswers (issues0 : list Issue) (index0 : nat) (cur : Issue)
    (hasOpenPr : bool)
| SummaryAnswers (cur : Issue) (r : Outcome (option string)).

Definition invalidUrlText : string :=
  "Invalid GitHub URL. Please use format: https://github.com/owner/repo".

(** One event. The operator does something the screen offers, or presses
    the start button, or one of the calls in flight is answered. The search
    answers with a failure text or a non-empty list, the PR check with its
    verdict, the summary with what the comments endpoint and the summarizer
    make of it in some world. An answer finds the component only while the
    screen renders. *)
Inductive astep : Config -> Event -> Config -> Prop :=
| astep_does a c :
    isOperatorAction a = true ->
    enabled a (ui c) = true ->
    offered a = true ->
    astep c (Does a) (startEffect (ui c) (update a (ui c)) (tasks c))
| astep_start_invalid c :
    enabled ClickStart (ui c) = true ->
    parseRepoUrl (repoUrl (ui c)) = None ->
    astep c PressStart
      {| ui := update (FetchFailed invalidUrlText) (update ClickStart (ui c));
         tasks := tasks c |}
| astep_start c repoData :
    enabled ClickStart (ui c) = true ->
    parseRepoUrl (repoUrl (ui c)) = Some repoData ->
    astep c PressStart
      {| ui := update ClickStart (ui c); tasks := tasks c ++ [SearchTask] |}
| astep_search_failed c reason before after :
    renders (ui c) = true ->
    tasks c = before ++ SearchTask :: after ->
    astep c (SearchAnswers (inl reason))
      {| ui := update (FetchFailed reason) (ui c); tasks := before ++ after |}
| astep_search_found c pureIssues before after :
    renders (ui c) = true ->
    tasks c = before ++ SearchTask :: after ->
    pureIssues <> [] ->
    astep c (SearchAnswers (inr pureIssues))
      (startEffect (ui c) (update (IssuesFetched pureIssues) (ui c))
         (before ++ after))
| astep_check_skips c issues0 index0 cur before after :
    renders (ui c) = true ->
    tasks c = before ++ CheckTask issues0 index0 cur :: after ->
    astep c (CheckAnswers issues0 index0 cur true)
      (startEffect (ui c) (lateSkip issues0 index0 (ui c)) (before ++ after))
| astep_check_passes c issues0 index0 cur before after :
    renders (ui c) = true ->
    tasks c = before ++ CheckTask issues0 index0 cur :: after ->
    astep c (CheckAnswers issues0 index0 cur false)
      {| ui := summarizing (setIsCheckingPr false (ui c));
         tasks := before ++ after ++ [SummaryTask cur] |}
| astep_summary c cur r before after env key t :
    renders (ui c) = true ->
    tasks c = before ++ SummaryTask cur :: after ->
    (summaryCall env cur key t).1 = r ->
    astep c (SummaryAnswers cur r)
      {| ui := summaryAnswer r (ui c); tasks := before ++ after |}.

(** The configurations a session can be in. *)
Inductive areachable : Config -> Prop :=
| areachable_mount storedRepoUrl storedGhToken storedGeminiKey :
    areachable
      {| ui := initialState storedRepoUrl storedGhToken storedGeminiKey;
         tasks := [] |}
| areachable_step c ev c' :
    areachable c -> astep c ev c' -> areachable c'.


(** An operator action, then the effect if it is due. *)
Definition does (a : Action) (c : Config) : Config :=
  startEffect (ui c) (update a (ui c)) (tasks c).

Definition doesAll (script : list Action) (c : Config) : Config :=
  foldl (fun c a => does a c) c script.

(** Whether the screen lets the operator perform each action of a script
    in turn. *)
Fixpoint allowedAll (script : list Action) (c : Config) : bool :=
  match script with
  | [] => true
  | a :: rest =>
      isOperatorAction a && enabled a (ui c) && offered a &&
      allowedAll rest (does a c)
  end.

(** Every PR check in flight was started on an issue of its list. *)
Definition checksStarted (pending : list Task) : Prop :=
  forall issues0 index0 cur,
    CheckTask issues0 index0 cur ∈ pending -> issues0 !! index0 = Some cur.

(** The number of searches in flight. *)
Definition isSearch (t : Task) : bool :=
  match t with SearchTask => true | _ => false end.

Definition searches (pending : list Task) : nat :=
  length (List.filter isSearch pending).

(** An entry that counts, said with the values themselves. *)
Definition fullyScored (kv : Z * ScoreEntry) : Prop :=
  ambiguity kv.2 ∈ ["1"; "2"; "3"; "4"; "5"] /\
  scale kv.2 ∈ ["1"; "2"; "3"; "4"; "5"] /\
  novelty kv.2 ∈ ["1"; "2"; "3"; "4"; "5"].

#[global] Instance fullyScored_dec kv : Decision (fullyScored kv).
Proof. unfold fullyScored. apply _. Defined.

(** What holds of the state at every moment of a session, late answers
    included. *)
Definition stateInvariant (s : State) : Prop :=
  step s <> fetching /\
  (step s = input -> scores s = ∅) /\
  (step s = triage -> validCount (scores s) < TARGET_ISSUE_COUNT) /\
  validCount (scores s) <= TARGET_ISSUE_COUNT /\
  draftWellFormed (currentRating s) /\
  (forall k e, scores s !! k = Some e -> committedFrom s k e).

(** The same with the calls in flight: at most one search, during which
    the session is not in triage, holds no score and shows the start button
    as loading; and PR checks started on an issue of their list. *)
Definition configInvariant (c : Config) : Prop :=
  stateInvariant (ui c) /\
  searches (tasks c) <= 1 /\
  (0 < searches (tasks c) ->
     step (ui c) <> triage /\ scores (ui c) = ∅ /\ loading (ui c) = true) /\
  checksStarted (tasks c).

(** Commits made one after the other. *)
Definition commitAll (scores : gmap Z ScoreEntry)
    (ratings : list (Issue * ScoreEntry)) : gmap Z ScoreEntry :=
  foldl (fun m p => commit m p.1 p.2) scores ratings.

(** ** More sample data *)

(** The first issue rated, then the second, then the first brought up
    again with another rating and committed again. *)
Definition ratedSecond : State := default ratedFirst (handleNext ratedFirst).

Definition reratingFirstLater : State :=
  setCurrentRating otherRating (setCurrentIndex 0 ratedSecond).

Definition reratedFirstLater : State :=
  default reratingFirstLater (handleNext reratingFirstLater).




(** A session on the single issue 2, event by event: mounted; start
    pressed; the search answered; the exit modal opened; the exit confirmed
    while the PR check is still in flight. *)
Definition lateMounted : Config := {| ui := mounted; tasks := [] |}.

Definition lateSearching : Config :=
  {| ui := update ClickStart (ui lateMounted);
     tasks := tasks lateMounted ++ [SearchTask] |}.

Definition lateChecking : Config :=
  startEffect (ui lateSearching)
    (update (IssuesFetched [issue2]) (ui lateSearching)) ([] ++ []).

Definition lateExited : Config :=
  doesAll [OpenExitModal; ConfirmExit] lateChecking.

(** The same on the two issues 2 and 3; then start pressed again, and the
    new search answered with the single issue 1 while the PR check of the
    abandoned session is still in flight; then that check answers that
    issue 2 has an open pull request. *)
Definition staleChecking : Config :=
  startEffect (ui lateSearching)
    (update (IssuesFetched [issue2; issue3]) (ui lateSearching)) ([] ++ []).

Definition staleExited : Config :=
  doesAll [OpenExitModal; ConfirmExit] staleChecking.

Definition staleSearching : Config :=
  {| ui := update ClickStart (ui staleExited);
     tasks := tasks staleExited ++ [SearchTask] |}.

Definition staleRestarted : Config :=
  startEffect (ui staleSearching)
    (update (IssuesFetched [issue1]) (ui staleSearching))
    ([CheckTask [issue2; issue3] 0 issue2] ++ []).

Definition staleAnswered : Config :=
  startEffect (ui staleRestarted)
    (lateSkip [issue2; issue3] 0 (ui staleRestarted))
    ([] ++ [CheckTask [issue1] 0 issue1]).

(** A session on the issues 1 and 3: the first issue passes its PR check
    and its summary is requested; the operator rates it and moves on before
    the summary arrives; the second issue passes its check and its summary
    arrives; then the summary call of the first issue fails. *)
Definition slowChecking : Config :=
  startEffect (ui lateSearching)
    (update (IssuesFetched [issue1; issue3]) (ui lateSearching)) ([] ++ []).

Definition slowSummarizing : Config :=
  {| ui := summarizing (setIsCheckingPr false (ui slowChecking));
     tasks := [] ++ [] ++ [SummaryTask issue1] |}.

Definition slowMovedOn : Config :=
  doesAll (rateAndNext "fix" "3" "x" "5") slowSummarizing.

Definition slowSecondSummarizing : Config :=
  {| ui := summarizing (setIsCheckingPr false (ui slowMovedOn));
     tasks := [SummaryTask issue1] ++ [] ++ [SummaryTask issue3] |}.

Definition slowSecondShown : Config :=
  {| ui := summaryAnswer (Returned (Some "A summary."))
             (ui slowSecondSummarizing);
     tasks := [SummaryTask issue1] ++ [] |}.

Definition slowFirstFailed : Config :=
  {| ui := summaryAnswer (Thrown (NetworkError "Failed to fetch"))
             (ui slowSecondShown);
     tasks := [] ++ [] |}.

(** Below this bound every integer is a JavaScript number of its own and
    is printed with exactly its decimal digits (above it digits are lost,
    and from 10^21 on the exponent notation is used). *)
Definition decimalBound : Z := (2 ^ 53)%Z.

(** * Verified properties *)

(** ** Strings and arrays *)

Lemma split_nonempty sep s : split sep s <> [].
Proof.
  destruct s as [|c rest]; simpl; [discriminate|].
  destruct (Ascii.eqb c sep); [discriminate|].
  destruct (split sep rest); discriminate.
Qed.

Lemma split_length sep s : length (split sep s) = S (occurrences sep s).
Proof.
  induction s as [|c rest IH]; simpl; [reflexivity|].
  destruct (Ascii.eqb c sep); simpl; [by rewrite IH|].
  destruct (split sep rest) eqn:E; simpl in *; [discriminate|done].
Qed.

Lemma join_split sep s : join sep (split sep s) = s.
Proof.
  induction s as [|c rest IH]; simpl; [reflexivity|].
  destruct (Ascii.eqb c sep) eqn:Ec.
  - apply Ascii.eqb_eq in Ec as ->.
    pose proof (split_nonempty sep rest) as Hne.
    destruct (split sep rest) as [|seg segs] eqn:E; [done|].
    simpl in *. by rewrite IH.
  - pose proof (split_nonempty sep rest) as Hne.
    destruct (split sep rest) as [|seg segs] eqn:E; [done|].
    destruct segs as [|seg' segs']; simpl in *; by rewrite <- IH.
Qed.

Lemma split_segments_clean sep s :
  Forall (fun seg => occurrences sep seg = 0) (split sep s).
Proof.
  induction s as [|c rest IH]; simpl.
  - by constructor.
  - destruct (Ascii.eqb c sep) eqn:Ec.
    + by constructor.
    + destruct (split sep rest) as [|seg segs]; [by repeat constructor; simpl; rewrite Ec|].
      inversion IH; subst. constructor; [|done]. simpl. by rewrite Ec.
Qed.

Lemma removeTrailingSlash_spec s :
  if endsWith "/" s then s = removeTrailingSlash s +:+ "/"
  else removeTrailingSlash s = s.
Proof.
  induction s as [|c rest IH]; [reflexivity|].
  destruct rest as [|d rest'].
  - simpl. destruct (Ascii.eqb c "/") eqn:Ec; [|reflexivity].
    apply Ascii.eqb_eq in Ec as ->. reflexivity.
  - change (endsWith "/" (String c (String d rest')))
      with (endsWith "/" (String d rest')).
    change (removeTrailingSlash (String c (String d rest')))
      with (String c (removeTrailingSlash (String d rest'))).
    destruct (endsWith "/" (String d rest')).
    + rewrite IH at 1. reflexivity.
    + by rewrite IH.
Qed.

Lemma pop_snoc {A} (l : list A) (x : A) : pop (l ++ [x]) = (Some x, l).
Proof. unfold pop. by rewrite last_snoc, removelast_last. Qed.

(** The two [pop()] calls, read off the reversed array. *)
Lemma pop_twice_rev (segments : list string) :
  (if (length segments <? 2)%nat then None
   else
     let '(repo, parts1) := pop segments in
     let '(owner, _) := pop parts1 in
     Some {| owner := owner; repo := repo |}) =
  match rev segments with
  | r :: o :: _ => Some {| owner := Some o; repo := Some r |}
  | _ => None
  end.
Proof.
  destruct segments as [|x l] using rev_ind; [reflexivity|].
  destruct l as [|y l'] using rev_ind; [reflexivity|].
  replace (length ((l' ++ [y]) ++ [x]) <? 2)%nat with false
    by (symmetry; apply Nat.ltb_ge; rewrite !length_app; simpl; lia).
  rewrite !pop_snoc, !rev_app_distr. reflexivity.
Qed.

Lemma last_two_lookup (segments : list string) :
  match rev segments with
  | r :: o :: _ => Some {| owner := Some o; repo := Some r |}
  | _ => None
  end =
  (if (length segments <? 2)%nat then None
   else Some {| owner := segments !! (length segments - 2);
                repo := segments !! (length segments - 1) |}).
Proof.
  destruct segments as [|x l] using rev_ind; [reflexivity|].
  destruct l as [|y l'] using rev_ind; [reflexivity|].
  replace (length ((l' ++ [y]) ++ [x]) <? 2)%nat with false
    by (symmetry; apply Nat.ltb_ge; rewrite !length_app; simpl; lia).
  rewrite !rev_app_distr. simpl. f_equal. f_equal.
  - rewrite lookup_app_l by (rewrite !length_app; simpl; lia).
    rewrite lookup_app_r by (rewrite !length_app; simpl; lia).
    rewrite !length_app. simpl.
    by replace (length l' + 1 + 1 - 2 - length l') with 0 by lia.
  - rewrite lookup_app_r by (rewrite !length_app; simpl; lia).
    rewrite !length_app. simpl.
    by replace (length l' + 1 + 1 - 1 - (length l' + 1)) with 0 by lia.
Qed.

Lemma parseRepoUrl_rev url :
  parseRepoUrl url =
  match rev (split "/" (removeTrailingSlash url)) with
  | r :: o :: _ => Some {| owner := Some o; repo := Some r |}
  | _ => None
  end.
Proof. unfold parseRepoUrl. apply pop_twice_rev. Qed.

(** ** C7, C10: the repository-URL parser *)

(** C7. [parseRepoUrl] removes a single trailing slash from its input
    (the cleaned string is the input without its final "/" when it ends in
    one, and the input itself otherwise), splits the result on "/" (the
    segments contain no "/" and joined by "/" give back the cleaned
    string), returns null when fewer than two segments remain, and
    otherwise returns the last segment as [repo] and the second-to-last as
    [owner]. Parsing "https://github.com/acme/widget/" gives owner "acme"
    and repo "widget"; parsing "not-a-url" fails. *)
Theorem parseRepoUrl_spec :
  (forall url : string,
     let cleanUrl := removeTrailingSlash url in
     let segments := split "/" cleanUrl in
     (if endsWith "/" url then url = cleanUrl +:+ "/" else cleanUrl = url) /\
     join "/" segments = cleanUrl /\
     Forall (fun seg => occurrences "/" seg = 0) segments /\
     parseRepoUrl url =
       (if (length segments <? 2)%nat then None
        else Some {| owner := segments !! (length segments - 2);
                     repo := segments !! (length segments - 1) |}) /\
     parseRepoUrl url =
       match rev segments with
       | r :: o :: _ => Some {| owner := Some o; repo := Some r |}
       | _ => None
       end) /\
  parseRepoUrl "https://github.com/acme/widget/"
    = Some {| owner := Some "acme"; repo := Some "widget" |} /\
  parseRepoUrl "not-a-url" = None.
Proof.
  split; [|split; reflexivity].
  intros url cleanUrl segments.
  split; [apply removeTrailingSlash_spec|].
  split; [apply join_split|].
  split; [apply split_segments_clean|].
  split; [|apply parseRepoUrl_rev].
  rewrite parseRepoUrl_rev. apply last_two_lookup.
Qed.

(** C10. Whenever the input, once its trailing slash is removed, still
    contains a "/", [parseRepoUrl] returns a (non-null) pair, whether or
    not the input is a repository URL; parsing "https://github.com/" gives
    owner "" and repo "github.com". *)
Theorem parseRepoUrl_accepts_any_slash :
  (forall url : string,
     (0 < occurrences "/" (removeTrailingSlash url))%nat ->
     exists o r,
       parseRepoUrl url = Some {| owner := Some o; repo := Some r |}) /\
  parseRepoUrl "https://github.com/"
    = Some {| owner := Some ""; repo := Some "github.com" |}.
Proof.
  split; [|reflexivity].
  intros url Hslash. rewrite parseRepoUrl_rev.
  pose proof (split_length "/" (removeTrailingSlash url)) as Hlen.
  rewrite <- length_rev in Hlen.
  destruct (rev (split "/" (removeTrailingSlash url))) as [|r [|o rest]];
    simpl in Hlen; [lia..|].
  by exists o, r.
Qed.

Lemma parseRepoUrl_accepts_any_slash_witness :
  (0 < occurrences "/" (removeTrailingSlash "https://github.com/"))%nat /\
  exists o r,
    parseRepoUrl "https://github.com/"
    = Some {| owner := Some o; repo := Some r |}.
Proof.
  split.
  - simpl. lia.
  - apply (proj1 parseRepoUrl_accepts_any_slash "https://github.com/").
    simpl. lia.
Defined.

(** ** C2: the score validator *)

Lemma includes_elem_of (arr : list string) (x : string) :
  includes arr x = true <-> x ∈ arr.
Proof.
  unfold includes. rewrite existsb_exists, list_elem_of_In. split.
  - intros (y & Hy & Heq). apply String.eqb_eq in Heq. by subst.
  - intros Hx. exists x. split; [done|]. apply String.eqb_refl.
Qed.

(** C2. [isValidScore r] is true exactly when [ambiguity], [scale] and
    [novelty] are each one of "1", "2", "3", "4", "5"; an "x" in any of the
    three makes it false whatever the others are; and the result does not
    depend on [type] (nor on the issue number, title or URL carried by the
    entry). *)
Theorem isValidScore_spec :
  (forall r : ScoreEntry,
     isValidScore r = true <->
     ambiguity r ∈ ["1"; "2"; "3"; "4"; "5"] /\
     scale r ∈ ["1"; "2"; "3"; "4"; "5"] /\
     novelty r ∈ ["1"; "2"; "3"; "4"; "5"]) /\
  (forall r : ScoreEntry,
     ambiguity r = "x" \/ scale r = "x" \/ novelty r = "x" ->
     isValidScore r = false) /\
  (forall (r : ScoreEntry) (ty : string) (n : option Z)
          (ti u : option string),
     isValidScore {| ambiguity := ambiguity r; scale := scale r;
                     novelty := novelty r; type := ty; issueNumber := n;
                     entryTitle := ti; entryUrl := u |}
     = isValidScore r).
Proof.
  split; [|split].
  - intros r. unfold isValidScore.
    rewrite !andb_true_iff, !includes_elem_of. unfold validValues. tauto.
  - intros r H. unfold isValidScore.
    destruct H as [-> | [-> | ->]]; simpl;
      rewrite ?andb_false_r; reflexivity.
  - reflexivity.
Qed.

Lemma isValidScore_spec_witness :
  isValidScore {| ambiguity := "x"; scale := "5"; novelty := "5";
                  type := "fix"; issueNumber := None; entryTitle := None;
                  entryUrl := None |} = false.
Proof.
  apply (proj1 (proj2 isValidScore_spec)). left. reflexivity.
Defined.

(** ** C4: committing a rating overwrites *)

Lemma commit_lookup_same scores cur rating :
  commit scores cur rating !! number cur = Some (newEntry rating cur).
Proof. unfold commit. apply lookup_insert_eq. Qed.

Lemma commit_lookup_other scores cur rating (k : Z) :
  k <> number cur -> commit scores cur rating !! k = scores !! k.
Proof. intros Hk. unfold commit. by rewrite lookup_insert_ne. Qed.

(** A commit never removes a key. *)
Lemma commit_keeps_keys scores cur rating (k : Z) :
  is_Some (scores !! k) -> is_Some (commit scores cur rating !! k).
Proof.
  intros Hk. destruct (decide (k = number cur)) as [->|Hne].
  - rewrite commit_lookup_same. eauto.
  - by rewrite commit_lookup_other.
Qed.

Lemma filter_key_absent (k : Z) (l : list (Z * ScoreEntry)) :
  Forall (fun kv => kv.1 <> k) l ->
  filter (fun kv : Z * ScoreEntry => kv.1 = k) l = [].
Proof.
  induction 1 as [|kv l Hkv _ IH]; [reflexivity|].
  by rewrite filter_cons_False.
Qed.

(** A map holds exactly one entry under a key that is present. *)
Lemma entries_under_key (m : gmap Z ScoreEntry) (k : Z) (v : ScoreEntry) :
  m !! k = Some v ->
  filter (fun kv : Z * ScoreEntry => kv.1 = k) (map_to_list m) ≡ₚ [(k, v)].
Proof.
  intros Hk.
  rewrite <- (map_to_list_delete m k v Hk).
  rewrite filter_cons_True by done.
  rewrite filter_key_absent; [done|].
  apply Forall_forall. intros [k' v'] Hin Heq. simpl in Heq. subst k'.
  apply elem_of_map_to_list in Hin. by rewrite lookup_delete_eq in Hin.
Qed.

(** What [handleNext] writes into the score mapping. *)
Lemma handleNext_scores s s' cur :
  issues s !! currentIndex s = Some cur ->
  handleNext s = Some s' ->
  scores s' = commit (scores s) cur (currentRating s).
Proof.
  unfold handleNext. intros ->.
  repeat case_match; intros [= <-]; reflexivity.
Qed.

(** Commits in between remove nothing. *)
Lemma commitAll_keeps_keys ratings :
  forall (scores : gmap Z ScoreEntry) (k : Z),
    is_Some (scores !! k) -> is_Some (commitAll scores ratings !! k).
Proof.
  induction ratings as [|[cur r] rest IH]; intros scores k Hk; [done|].
  apply IH. by apply commit_keeps_keys.
Qed.

(** C4. When "Next Issue" commits a rating for issue number N and, after
    any number of further commits, a later "Next Issue" commits again for
    the same number N, the score mapping then holds exactly one entry keyed
    by N; that entry carries the four values of the second rating and the
    number, title and URL of the issue as it was committed the second time
    (before the second commit the key held the values of the first rating);
    every other key holds what it held before the second commit; the
    mapping has as many entries and the same keys as before the second
    commit; and no key that was present before or after the first commit
    has disappeared. *)
Theorem commit_twice_overwrites (s1 s1' s2 s2' : State) (cur1 cur2 : Issue)
    (between : list (Issue * ScoreEntry)) :
  issues s1 !! currentIndex s1 = Some cur1 ->
  handleNext s1 = Some s1' ->
  scores s2 = commitAll (scores s1') between ->
  issues s2 !! currentIndex s2 = Some cur2 ->
  number cur2 = number cur1 ->
  handleNext s2 = Some s2' ->
  let second :=
    {| ambiguity := ambiguity (currentRating s2);
       scale := scale (currentRating s2);
       novelty := novelty (currentRating s2);
       type := type (currentRating s2);
       issueNumber := Some (number cur1);
       entryTitle := Some (title cur2);
       entryUrl := Some (html_url cur2) |} in
  scores s1' !! number cur1
  = Some {| ambiguity := ambiguity (currentRating s1);
            scale := scale (currentRating s1);
            novelty := novelty (currentRating s1);
            type := type (currentRating s1);
            issueNumber := Some (number cur1);
            entryTitle := Some (title cur1);
            entryUrl := Some (html_url cur1) |} /\
  scores s2' !! number cur1 = Some second /\
  filter (fun kv : Z * ScoreEntry => kv.1 = number cur1)
         (map_to_list (scores s2'))
    ≡ₚ [(number cur1, second)] /\
  (forall k : Z, k <> number cur1 -> scores s2' !! k = scores s2 !! k) /\
  size (scores s2') = size (scores s2) /\
  dom (scores s2') = dom (scores s2) /\
  (forall k : Z, is_Some (scores s1 !! k) -> is_Some (scores s2' !! k)) /\
  (forall k : Z, is_Some (scores s1' !! k) -> is_Some (scores s2' !! k)).
Proof.
  intros Hcur1 Hnext1 Hsc Hcur2 Hnum Hnext2 second.
  pose proof (handleNext_scores _ _ _ Hcur1 Hnext1) as H1.
  pose proof (handleNext_scores _ _ _ Hcur2 Hnext2) as H2.
  assert (Hfirst : scores s1' !! number cur1
                   = Some (newEntry (currentRating s1) cur1))
    by (rewrite H1; apply commit_lookup_same).
  assert (Hthere : is_Some (scores s2 !! number cur1)).
  { rewrite Hsc. apply commitAll_keeps_keys. rewrite Hfirst. eauto. }
  assert (Hm : scores s2' !! number cur1 = Some second).
  { rewrite H2, <- Hnum, commit_lookup_same. unfold newEntry, second.
    by rewrite Hnum. }
  split; [exact Hfirst|].
  split; [exact Hm|].
  split; [by apply entries_under_key|].
  split.
  { intros k Hk. rewrite H2. apply commit_lookup_other. congruence. }
  destruct Hthere as [old Hold].
  split.
  { rewrite H2. unfold commit. rewrite Hnum.
    apply map_size_insert_Some. eauto. }
  split.
  { rewrite H2. unfold commit. rewrite Hnum.
    apply dom_insert_lookup_L. eauto. }
  assert (Hkeep : forall k,
    is_Some (scores s1' !! k) -> is_Some (scores s2' !! k)).
  { intros k Hk. rewrite H2. apply commit_keeps_keys.
    rewrite Hsc. by apply commitAll_keeps_keys. }
  split; [|exact Hkeep].
  intros k Hk. apply Hkeep. rewrite H1. by apply commit_keeps_keys.
Qed.

Lemma commit_twice_overwrites_witness :
  scores reratedFirst !! 1%Z
  = Some {| ambiguity := "1"; scale := "2"; novelty := "4"; type := "docs";
            issueNumber := Some 1%Z; entryTitle := Some "Crash on start";
            entryUrl := Some "https://github.com/acme/widget/issues/1" |} /\
  scores reratedFirstLater !! 1%Z
  = Some {| ambiguity := "1"; scale := "2"; novelty := "4"; type := "docs";
            issueNumber := Some 1%Z; entryTitle := Some "Crash on start";
            entryUrl := Some "https://github.com/acme/widget/issues/1" |} /\
  size (scores reratedFirstLater) = 2.
Proof.
  split; [|split].
  - apply (commit_twice_overwrites ratingFirst ratedFirst reratingFirst
             reratedFirst issue1 issue1 []); reflexivity.
  - apply (commit_twice_overwrites ratingFirst ratedFirst reratingFirstLater
             reratedFirstLater issue1 issue1 [(issue2, sampleRating)]);
      reflexivity.
  - transitivity (size (scores reratingFirstLater)); [|reflexivity].
    apply (commit_twice_overwrites ratingFirst ratedFirst reratingFirstLater
             reratedFirstLater issue1 issue1 [(issue2, sampleRating)]);
      reflexivity.
Defined.

(** ** The step after a commit or a skip *)

Lemma hasNext_spec s :
  hasNext s = true <-> currentIndex s + 1 < length (issues s).
Proof. unfold hasNext. rewrite Z.ltb_lt. lia. Qed.


Lemma skipIssue_step s :
  step (skipIssue s) = if hasNext s then step s else complete.
Proof. unfold skipIssue. by destruct (hasNext s), s. Qed.

Lemma handleNext_step s cur :
  issues s !! currentIndex s = Some cur ->
  exists s',
    handleNext s = Some s' /\
    scores s' = commit (scores s) cur (currentRating s) /\
    step s' =
      if (TARGET_ISSUE_COUNT <=? validCount (scores s'))%nat then complete
      else if hasNext s then step s else complete.
Proof.
  intros Hcur. unfold handleNext. rewrite Hcur.
  destruct (TARGET_ISSUE_COUNT <=?
            validCount (commit (scores s) cur (currentRating s)))%nat eqn:Ht.
  - eexists. split; [reflexivity|]. destruct s; simpl in *. by rewrite Ht.
  - destruct (hasNext s) eqn:Hn; eexists; (split; [reflexivity|]);
      destruct s; simpl in *; by rewrite Ht.
Qed.

(** The asynchronous code sets the state through the same updates: the
    skip branch of the effect is [PrCheckSkips] applied to the state in
    which the check runs, and the search handler ends in [FetchFailed] or
    in [IssuesFetched] with a non-empty list, applied after [ClickStart]. *)
Lemma processCurrentIssue_skip_update env cur s t :
  checkForOpenPRs env cur t = (Returned true, t) ->
  processCurrentIssue env cur s t =
  (Returned
     (update PrCheckSkips
        (setIsCheckingPr true
           (setCurrentSummary "" (setSummaryError None
              (setCurrentRating blankRating s))))), t).
Proof. intros Hpr. unfold processCurrentIssue, bind. by rewrite Hpr. Qed.


(** ** C8: the confirmed exit *)

Lemma issueLifecycle_idle env fuel s :
  step s <> triage -> issueLifecycle env fuel s = ret s.
Proof. intros Hs. destruct fuel; simpl; by destruct (step s). Qed.

Lemma runEffect_idle env s : step s <> triage -> runEffect env s = ret s.
Proof. apply issueLifecycle_idle. Qed.



(** ** C6: the PR-liveness checker *)

Lemma isOpenPrCrossReference_spec ev :
  isOpenPrCrossReference ev = true <->
  event ev = Some "cross-referenced" /\
  exists src si,
    source ev = Some src /\ issue src = Some si /\
    is_Some (pull_request si) /\ state si = Some "open".
Proof.
  unfold isOpenPrCrossReference, sourceIssue.
  rewrite !andb_true_iff, !bool_decide_eq_true.
  destruct (source ev) as [src|]; simpl.
  - destruct (issue src) as [si|] eqn:Hissue; simpl.
    + split.
      * intros [[He Hp] Hs]. split; [done|]. exists src, si.
        destruct (pull_request si); [|discriminate].
        split; [done|]. split; [done|]. split; [by eexists|done].
      * intros [He (src' & si' & [= <-] & Hsi & [pr Hp] & Hs)].
        rewrite Hissue in Hsi. injection Hsi as <-.
        by rewrite Hp.
    + split; [intros [[_ [=]] _]|intros [_ (src' & si & [= <-] & Hsi & _)]; congruence].
  - split; [intros [[_ [=]] _]|intros [_ (src & si & [=] & _)]].
Qed.

(** C6. [checkForOpenPRs] never throws and does nothing else to the
    world; it returns true exactly when the timeline request resolves with
    an ok status, its body parses, and the events contain one whose [event]
    is "cross-referenced", whose [source.issue] has a [pull_request] and
    whose [source.issue.state] is "open". In particular it returns false
    on a transport error, on a non-ok response, and on a body that does not
    parse. *)
Theorem checkForOpenPRs_spec (env : Env) (i : Issue) (t : Trace) :
  exists b : bool,
    checkForOpenPRs env i t = (Returned b, t) /\
    (b = true <->
     exists response events,
       timeline_api env (url i +:+ "/timeline") = Resolved response /\
       ok response = true /\
       json response = inr events /\
       exists ev, ev ∈ events /\
         event ev = Some "cross-referenced" /\
         exists src si,
           source ev = Some src /\ issue src = Some si /\
           is_Some (pull_request si) /\ state si = Some "open") /\
    (forall e, timeline_api env (url i +:+ "/timeline") = Rejected e ->
               b = false) /\
    (forall response,
       timeline_api env (url i +:+ "/timeline") = Resolved response ->
       ok response = false -> b = false) /\
    (forall response e,
       timeline_api env (url i +:+ "/timeline") = Resolved response ->
       json response = inl e -> b = false).
Proof.
  unfold checkForOpenPRs, try_catch, bind, fetch, awaitJson.
  destruct (timeline_api env (url i +:+ "/timeline")) as [e|response] eqn:Hapi.
  - exists false. simpl. split; [done|]. split; [|done].
    split; [done|]. intros (? & ? & [=] & _).
  - unfold ret, throw. destruct (ok response) eqn:Hok; simpl.
    + destruct (json response) as [e|events] eqn:Hjson; simpl.
      * exists false. split; [done|]. split; [|done].
        split; [done|]. intros (r & evs & [= <-] & _ & Hj & _). congruence.
      * exists (existsb isOpenPrCrossReference events).
        split; [done|]. split; [|repeat split; congruence].
        rewrite existsb_exists. split.
        -- intros (ev & Hin & Hev). exists response, events.
           repeat split; try done. exists ev.
           apply list_elem_of_In in Hin.
           apply isOpenPrCrossReference_spec in Hev. tauto.
        -- intros (r & evs & [= <-] & _ & Hj & ev & Hin & He & Hsi).
           rewrite Hjson in Hj. injection Hj as <-.
           exists ev. split; [by apply list_elem_of_In|].
           by apply isOpenPrCrossReference_spec.
    + exists false. split; [done|]. split; [|done].
      split; [done|]. intros (r & evs & [= <-] & Hok' & _). congruence.
Qed.

(** In the sample world the check answers true for issue 2, which an open
    pull request refers to, and false for issue 1, whose timeline is
    empty. *)
Lemma checkForOpenPRs_spec_witness :
  checkForOpenPRs sampleEnv issue2 emptyTrace = (Returned true, emptyTrace) /\
  checkForOpenPRs sampleEnv issue1 emptyTrace = (Returned false, emptyTrace).
Proof.
  split.
  - destruct (checkForOpenPRs_spec sampleEnv issue2 emptyTrace)
      as (b & -> & Hiff & _).
    f_equal. f_equal. apply Hiff.
    exists (mkResponse 200 (inr [openPrReference])), [openPrReference].
    split; [reflexivity|]. split; [reflexivity|]. split; [reflexivity|].
    exists openPrReference. split; [constructor|]. split; [reflexivity|].
    eexists _, _. split; [reflexivity|]. split; [reflexivity|].
    split; [by eexists|reflexivity].
  - destruct (checkForOpenPRs_spec sampleEnv issue1 emptyTrace)
      as (b & -> & Hiff & _).
    f_equal. f_equal. destruct b; [|reflexivity].
    destruct (proj1 Hiff eq_refl)
      as (response & events & Hapi & _ & Hjson & ev & Hin & _).
    injection Hapi as <-. injection Hjson as <-.
    by apply not_elem_of_nil in Hin.
Defined.


(** ** C3: the summarizer's retry loop *)

Lemma geminiAttempt_run env apiUrl prompt t :
  geminiAttempt env apiUrl prompt t =
  (match attemptResult (gemini_api env (length (posts t))) with
   | inl e => Thrown e
   | inr v => Returned v
   end, recordPost apiUrl prompt t).
Proof.
  unfold geminiAttempt, bind, postGemini, attemptResult, awaitJson.
  destruct (gemini_api env (length (posts t))) as [e|response]; [done|].
  destruct (ok response); simpl; [|done].
  by destruct (json response).
Qed.

(** One iteration that succeeds. *)
Lemma geminiLoop_success env apiUrl prompt fuel retries t v :
  retries <= maxRetries ->
  attemptResult (gemini_api env (length (posts t))) = inr v ->
  geminiLoop env apiUrl prompt (S fuel) retries t
  = (Returned (Some v), recordPost apiUrl prompt t).
Proof.
  intros Hr Hv. simpl.
  replace (retries <=? maxRetries)%nat with true
    by (symmetry; by apply Nat.leb_le).
  unfold try_catch, bind. by rewrite geminiAttempt_run, Hv.
Qed.

(** The last iteration failing: the error is rethrown. *)
Lemma geminiLoop_give_up env apiUrl prompt fuel t e :
  attemptResult (gemini_api env (length (posts t))) = inl e ->
  geminiLoop env apiUrl prompt (S fuel) maxRetries t
  = (Thrown e, recordPost apiUrl prompt t).
Proof.
  intros He. simpl. unfold try_catch, bind.
  by rewrite geminiAttempt_run, He.
Qed.

(** An earlier iteration failing: sleep, then go round again. *)
Lemma geminiLoop_retry env apiUrl prompt fuel retries t e :
  retries < maxRetries ->
  attemptResult (gemini_api env (length (posts t))) = inl e ->
  geminiLoop env apiUrl prompt (S fuel) retries t
  = geminiLoop env apiUrl prompt fuel (S retries)
      (recordSleep env (default 0%N (delays !! retries))
         (recordPost apiUrl prompt t)).
Proof.
  intros Hr He.
  change (geminiLoop env apiUrl prompt (S fuel) retries t) with
    ((if (retries <=? maxRetries)%nat then
        try_catch
          (summary <- geminiAttempt env apiUrl prompt ;; ret (Some summary))
          (fun error =>
             if (retries =? maxRetries)%nat then throw error
             else
               sleep env (default 0%N (delays !! retries)) ;;;
               geminiLoop env apiUrl prompt fuel (S retries))
      else ret None) t).
  replace (retries <=? maxRetries)%nat with true
    by (symmetry; apply Nat.leb_le; lia).
  unfold try_catch at 1. unfold bind at 1.
  rewrite geminiAttempt_run, He.
  replace (retries =? maxRetries)%nat with false
    by (symmetry; apply Nat.eqb_neq; lia).
  reflexivity.
Qed.

Lemma attemptResult_failed answer :
  failed (attemptResult answer) <->
  (exists e, answer = Rejected e) \/
  (exists response,
     answer = Resolved response /\
     (ok response = false \/ exists e, json response = inl e)).
Proof.
  destruct answer as [e|response]; simpl.
  - split; [eauto|done].
  - destruct (ok response) eqn:Hok; simpl.
    + destruct (json response) as [e|data] eqn:Hj; simpl.
      * split; [|done]. intros _. right. exists response. eauto.
      * split; [done|].
        intros [[e [=]] | (r & [= <-] & [Hk | [e He]])]; congruence.
    + split; [|done]. intros _. right. exists response. eauto.
Qed.

Lemma posts_after_round env d apiUrl prompt t :
  length (posts (recordSleep env d (recordPost apiUrl prompt t)))
  = S (length (posts t)).
Proof. simpl. rewrite length_app. simpl. lia. Qed.

(** The loop from any value of [retries], with enough fuel: it makes [k]
    attempts, sleeping the scheduled delays between them; every attempt but
    the last one failed; it stops at the first success, or with the error
    of the attempt made at [retries = maxRetries]. It never falls off the
    end of the loop. *)
Lemma geminiLoop_spec env apiUrl prompt remaining :
  forall retries fuel t,
    retries + remaining = maxRetries ->
    remaining < fuel ->
    exists k t',
      1 <= k <= S remaining /\
      posts t' = posts t ++ replicate k (apiUrl, prompt) /\
      sleeps t' = sleeps t ++ take (k - 1) (drop retries delays) /\
      (forall j, j < k - 1 ->
         failed (attemptResult (gemini_api env (length (posts t) + j)))) /\
      (failed (attemptResult (gemini_api env (length (posts t) + (k - 1))))
       -> k = S remaining) /\
      geminiLoop env apiUrl prompt fuel retries t =
        (match attemptResult (gemini_api env (length (posts t) + (k - 1)))
         with
         | inr v => Returned (Some v)
         | inl e => Thrown e
         end, t').
Proof.
  induction remaining as [|remaining IH]; intros retries fuel t Hsum Hfuel;
    (destruct fuel as [|fuel]; [lia|]);
    destruct (attemptResult (gemini_api env (length (posts t)))) as [e|v]
      eqn:Hres.
  - (* last round, failing *)
    assert (retries = maxRetries) as -> by lia.
    exists 1, (recordPost apiUrl prompt t).
    replace (1 - 1) with 0 by lia. rewrite Nat.add_0_r, Hres.
    split; [lia|]. split; [reflexivity|].
    split; [by rewrite take_0, app_nil_r|].
    split; [intros j Hj; lia|]. split; [done|].
    by apply geminiLoop_give_up.
  - (* last round, succeeding *)
    exists 1, (recordPost apiUrl prompt t).
    replace (1 - 1) with 0 by lia. rewrite Nat.add_0_r, Hres.
    split; [lia|]. split; [reflexivity|].
    split; [by rewrite take_0, app_nil_r|].
    split; [intros j Hj; lia|]. split; [done|].
    apply geminiLoop_success; [lia|done].
  - (* an earlier round, failing *)
    assert (Hlt : retries < maxRetries) by lia.
    destruct (lookup_lt_is_Some_2 delays retries) as [d Hd];
      [exact Hlt|].
    destruct (IH (S retries) fuel
                (recordSleep env d (recordPost apiUrl prompt t)))
      as (k & t' & Hk & Hposts & Hsleeps & Hearlier & Hlast & Hrun);
      [lia|lia|].
    rewrite posts_after_round in Hearlier, Hlast, Hrun.
    exists (S k), t'.
    replace (S k - 1) with (S (k - 1)) by lia.
    replace (length (posts t) + S (k - 1))
      with (S (length (posts t)) + (k - 1)) by lia.
    split; [lia|]. split.
    { rewrite Hposts. simpl. by rewrite <- app_assoc. }
    split.
    { rewrite Hsleeps. simpl. rewrite <- app_assoc.
      by rewrite (drop_S delays d retries Hd). }
    split.
    { intros [|j] Hj.
      - rewrite Nat.add_0_r, Hres. exact I.
      - replace (length (posts t) + S j)
          with (S (length (posts t)) + j) by lia.
        apply Hearlier. lia. }
    split.
    { intros Hf. apply Hlast in Hf. lia. }
    rewrite <- Hrun.
    rewrite (geminiLoop_retry _ _ _ _ _ _ e Hlt Hres). by rewrite Hd.
  - (* an earlier round, succeeding *)
    exists 1, (recordPost apiUrl prompt t).
    replace (1 - 1) with 0 by lia. rewrite Nat.add_0_r, Hres.
    split; [lia|]. split; [reflexivity|].
    split; [by rewrite take_0, app_nil_r|].
    split; [intros j Hj; lia|]. split; [done|].
    apply geminiLoop_success; [lia|done].
Qed.

(** C3. [fetchGeminiSummary] makes between one and four attempts, all to
    the same URL with the same prompt; an attempt fails when the request is
    rejected, the response is not ok, or its body does not parse; every
    attempt before the last one made has failed, and between attempts it
    sleeps 1000, 2000 and 4000 ms in that order; it stops at the first
    success and returns its value, or throws the error of the fourth
    attempt. When the first three attempts fail and the fourth succeeds,
    the success value is returned after exactly those three sleeps and at
    least 7000 ms of waiting; when all four fail, the fourth error is
    thrown to the caller. *)
Theorem fetchGeminiSummary_retries
    (env : Env) (textToSummarize key : string) (t : Trace) :
  let n := length (posts t) in
  let result := fun j => attemptResult (gemini_api env (n + j)) in
  (forall answer,
     failed (attemptResult answer) <->
     (exists e, answer = Rejected e) \/
     (exists response,
        answer = Resolved response /\
        (ok response = false \/ exists e, json response = inl e))) /\
  (exists k t',
     1 <= k <= 4 /\
     posts t' = posts t ++
       replicate k (geminiUrl key, geminiPrompt textToSummarize) /\
     sleeps t' = sleeps t ++ take (k - 1) [1000; 2000; 4000]%N /\
     (forall j, j < k - 1 -> failed (result j)) /\
     (failed (result (k - 1)) -> k = 4) /\
     fetchGeminiSummary env textToSummarize key t =
       (match result (k - 1) with
        | inr v => Returned (Some v)
        | inl e => Thrown e
        end, t')) /\
  (forall v,
     failed (result 0) -> failed (result 1) -> failed (result 2) ->
     result 3 = inr v ->
     exists t',
       fetchGeminiSummary env textToSummarize key t = (Returned (Some v), t') /\
       length (posts t') = n + 4 /\
       sleeps t' = sleeps t ++ [1000; 2000; 4000]%N /\
       (waited t + 7000 <= waited t')%N) /\
  (forall e,
     failed (result 0) -> failed (result 1) -> failed (result 2) ->
     result 3 = inl e ->
     exists t',
       fetchGeminiSummary env textToSummarize key t = (Thrown e, t') /\
       length (posts t') = n + 4 /\
       sleeps t' = sleeps t ++ [1000; 2000; 4000]%N).
Proof.
  intros n result. split; [apply attemptResult_failed|].
  split.
  { destruct (geminiLoop_spec env (geminiUrl key)
                (geminiPrompt textToSummarize) maxRetries 0 (S maxRetries) t)
      as (k & t' & Hk & Hrest); [reflexivity|lia|].
    exists k, t'. split; [exact Hk|exact Hrest]. }
  assert (Hround : forall v0,
    failed (result 0) -> failed (result 1) -> failed (result 2) ->
    result 3 = v0 ->
    exists t',
      fetchGeminiSummary env textToSummarize key t =
        (match v0 with inr v => Returned (Some v) | inl e => Thrown e end, t')
      /\ length (posts t') = n + 4 /\
      sleeps t' = sleeps t ++ [1000; 2000; 4000]%N /\
      (waited t + 7000 <= waited t')%N).
  { intros v0 H0 H1 H2 H3. subst result n. simpl in H0, H1, H2, H3.
    rewrite Nat.add_0_r in H0.
    destruct (attemptResult (gemini_api env (length (posts t))))
      as [e0|] eqn:E0; [|done].
    unfold fetchGeminiSummary. change (S maxRetries) with 4.
    rewrite (geminiLoop_retry _ _ _ _ _ _ e0) by (done || (unfold maxRetries; lia)).
    set (t1 := recordSleep env _ (recordPost _ _ t)).
    assert (L1 : length (posts t1) = length (posts t) + 1)
      by (subst t1; rewrite posts_after_round; lia).
    destruct (attemptResult (gemini_api env (length (posts t) + 1)))
      as [e1|] eqn:E1; [|done].
    rewrite <- L1 in E1.
    rewrite (geminiLoop_retry _ _ _ _ _ _ e1) by (done || (unfold maxRetries; lia)).
    set (t2 := recordSleep env _ (recordPost _ _ t1)).
    assert (L2 : length (posts t2) = length (posts t) + 2)
      by (subst t2; rewrite posts_after_round; lia).
    destruct (attemptResult (gemini_api env (length (posts t) + 2)))
      as [e2|] eqn:E2; [|done].
    rewrite <- L2 in E2.
    rewrite (geminiLoop_retry _ _ _ _ _ _ e2) by (done || (unfold maxRetries; lia)).
    set (t3 := recordSleep env _ (recordPost _ _ t2)).
    assert (L3 : length (posts t3) = length (posts t) + 3)
      by (subst t3; rewrite posts_after_round; lia).
    rewrite <- L3 in H3.
    exists (recordPost (geminiUrl key) (geminiPrompt textToSummarize) t3).
    split.
    { destruct v0 as [e|v].
      - by apply geminiLoop_give_up.
      - apply geminiLoop_success; [reflexivity|done]. }
    split.
    { simpl. rewrite !length_app. simpl. lia. }
    split.
    { simpl. by rewrite <- !app_assoc. }
    simpl. lia. }
  split.
  - intros v H0 H1 H2 H3. exact (Hround (inr v) H0 H1 H2 H3).
  - intros e H0 H1 H2 H3.
    destruct (Hround (inl e) H0 H1 H2 H3) as (t' & Hrun & Hp & Hs & _).
    eauto.
Qed.

Lemma fetchGeminiSummary_retries_witness :
  exists t',
    fetchGeminiSummary sampleEnv "Title: Crash on start" "key" emptyTrace
    = (Returned (Some "A summary."), t') /\
    length (posts t') = 4 /\
    sleeps t' = [1000; 2000; 4000]%N /\
    (7000 <= waited t')%N.
Proof.
  apply (proj1 (proj2 (proj2
    (fetchGeminiSummary_retries sampleEnv "Title: Crash on start" "key"
       emptyTrace))) "A summary."); simpl; done.
Defined.


(** ** C9: the comments fetch inside the summary step *)

(** The step as a function of the comments endpoint's answer. *)
Lemma generateSummaryForIssue_run env i s t :
  generateSummaryForIssue env i s t =
  match comments_api env (comments_url i) with
  | Rejected e => (Returned (summarized (Thrown e) s), t)
  | Resolved response =>
      if ok response then
        match json response with
        | inl e => (Returned (summarized (Thrown e) s), t)
        | inr comments =>
            let '(r, t') :=
              fetchGeminiSummary env (fullText i comments) (geminiKey s) t in
            (Returned (summarized r s), t')
        end
      else
        let '(r, t') :=
          fetchGeminiSummary env (fullText i []) (geminiKey s) t in
        (Returned (summarized r s), t')
  end.
Proof.
  unfold generateSummaryForIssue, bind, try_catch, fetch.
  destruct (comments_api env (comments_url i)) as [e|response]; [done|].
  unfold ret at 1. destruct (ok response).
  - unfold awaitJson. destruct (json response) as [e|comments]; [done|].
    unfold ret at 1.
    by destruct (fetchGeminiSummary env (fullText i comments) (geminiKey s) t)
      as [[summary|e] t'].
  - unfold ret at 1.
    by destruct (fetchGeminiSummary env (fullText i []) (geminiKey s) t)
      as [[summary|e] t'].
Qed.

(** The summarizer always posts its prompt at least once, and nothing else. *)
Lemma fetchGeminiSummary_posts env textToSummarize key t :
  exists k,
    1 <= k /\
    posts (fetchGeminiSummary env textToSummarize key t).2
    = posts t ++ replicate k (geminiUrl key, geminiPrompt textToSummarize).
Proof.
  destruct (geminiLoop_spec env (geminiUrl key)
              (geminiPrompt textToSummarize) maxRetries 0 (S maxRetries) t)
    as (k & t' & Hk & Hposts & _ & _ & _ & Hrun); [reflexivity|lia|].
  exists k. split; [lia|]. unfold fetchGeminiSummary. by rewrite Hrun.
Qed.

(** Whatever happens, the step returns, clears the spinner and leaves the
    session where it was. *)
Lemma generateSummaryForIssue_frame env i s t :
  exists s' t',
    generateSummaryForIssue env i s t = (Returned s', t') /\
    isSummarizing s' = false /\
    step s' = step s /\ issues s' = issues s /\
    currentIndex s' = currentIndex s /\ scores s' = scores s /\
    currentRating s' = currentRating s /\
    isCheckingPr s' = isCheckingPr s.
Proof.
  assert (Hsum : forall r,
    isSummarizing (summarized r s) = false /\
    step (summarized r s) = step s /\ issues (summarized r s) = issues s /\
    currentIndex (summarized r s) = currentIndex s /\
    scores (summarized r s) = scores s /\
    currentRating (summarized r s) = currentRating s /\
    isCheckingPr (summarized r s) = isCheckingPr s)
    by (intros [summary|e]; by destruct s).
  rewrite generateSummaryForIssue_run.
  destruct (comments_api env (comments_url i)) as [e|response]; [by eauto|].
  destruct (ok response).
  - destruct (json response) as [e|comments]; [by eauto|].
    destruct (fetchGeminiSummary env (fullText i comments) (geminiKey s) t)
      as [r t']. by eauto.
  - destruct (fetchGeminiSummary env (fullText i []) (geminiKey s) t)
      as [r t']. by eauto.
Qed.

(** The claim C9 does not hold of the code on a transport error: were
    every failure of the comments request to end in a summary of the
    title and body, the prompt built from them would be posted; with the
    comments endpoint unreachable, the summary step for the first sample
    issue posts nothing. *)
Lemma comments_fetch_counterexample :
  ~ (forall env i s t,
       requestFailed (comments_api env (comments_url i)) ->
       exists s' t',
         generateSummaryForIssue env i s t = (Returned s', t') /\
         (geminiUrl (geminiKey s), geminiPrompt (fullText i []))
           ∈ posts t').
Proof.
  intros H.
  destruct (H noCommentsEnv issue1 ratingFirst emptyTrace)
    as (s' & t' & Hrun & Hin).
  { left. by eexists. }
  rewrite generateSummaryForIssue_run in Hrun. simpl in Hrun.
  injection Hrun as _ <-. simpl in Hin. by apply not_elem_of_nil in Hin.
Qed.

(** C9. What the summary step does when the comments request fails. The
    claim is that every such failure degrades to an empty comment list and
    the summary is still made from the title and body. The code does so
    for a non-ok status only (line 459): the summarizer then runs against
    the text built from the title and body alone, that prompt is posted at
    least once and nothing else is, and the step ends with what the
    summarizer gave. When the request is rejected in transport (line 458),
    or answered ok with a body that does not parse (line 459), the
    exception lands in the [catch] of the whole step: the summarizer is not
    called, nothing is posted, and the step ends with the failure text, an
    empty summary and the spinner off. In every case the step returns
    without throwing and leaves the step, issues, index and scores of the
    session untouched. *)
Theorem comments_fetch_outcomes (env : Env) (i : Issue) (s : State)
    (t : Trace) :
  (forall response,
     comments_api env (comments_url i) = Resolved response ->
     ok response = false ->
     generateSummaryForIssue env i s t =
       (Returned
          (summarized
             (fetchGeminiSummary env (fullText i []) (geminiKey s) t).1 s),
        (fetchGeminiSummary env (fullText i []) (geminiKey s) t).2) /\
     exists k,
       1 <= k /\
       posts (generateSummaryForIssue env i s t).2
       = posts t ++
         replicate k (geminiUrl (geminiKey s), geminiPrompt (fullText i []))) /\
  (forall e,
     comments_api env (comments_url i) = Rejected e \/
     (exists response,
        comments_api env (comments_url i) = Resolved response /\
        ok response = true /\ json response = inl e) ->
     exists s',
       generateSummaryForIssue env i s t = (Returned s', t) /\
       summaryError s'
       = Some "Failed to generate summary. You may need to read the raw issue." /\
       currentSummary s' = "" /\
       isSummarizing s' = false) /\
  (exists s' t',
     generateSummaryForIssue env i s t = (Returned s', t') /\
     isSummarizing s' = false /\
     step s' = step s /\ issues s' = issues s /\
     currentIndex s' = currentIndex s /\ scores s' = scores s).
Proof.
  split; [|split].
  - intros response Hapi Hok.
    assert (Hrun : generateSummaryForIssue env i s t =
      (Returned
         (summarized
            (fetchGeminiSummary env (fullText i []) (geminiKey s) t).1 s),
       (fetchGeminiSummary env (fullText i []) (geminiKey s) t).2)).
    { rewrite generateSummaryForIssue_run, Hapi, Hok.
      by destruct (fetchGeminiSummary env (fullText i []) (geminiKey s) t). }
    split; [exact Hrun|]. rewrite Hrun. simpl.
    apply fetchGeminiSummary_posts.
  - intros e Hfail. exists (summarized (Thrown e) s).
    split; [|by destruct s].
    destruct Hfail as [Hapi | (response & Hapi & Hok & Hjson)];
      rewrite generateSummaryForIssue_run, Hapi; [done|].
    by rewrite Hok, Hjson.
  - destruct (generateSummaryForIssue_frame env i s t)
      as (s' & t' & Hrun & H1 & H2 & H3 & H4 & H5 & _).
    by exists s', t'.
Qed.

(** With the comments endpoint unreachable the step for the first sample
    issue ends with the failure text and has posted nothing; with the
    endpoint answering 500 it posts the prompt made from the title and
    body. *)
Lemma comments_fetch_outcomes_witness :
  (exists s',
     generateSummaryForIssue noCommentsEnv issue1 ratingFirst emptyTrace
     = (Returned s', emptyTrace) /\
     summaryError s'
     = Some "Failed to generate summary. You may need to read the raw issue." /\
     currentSummary s' = "" /\
     isSummarizing s' = false) /\
  (exists k,
     1 <= k /\
     posts (generateSummaryForIssue commentsErrorEnv issue1 ratingFirst
              emptyTrace).2
     = replicate k (geminiUrl "key", geminiPrompt (fullText issue1 []))).
Proof.
  split.
  - apply (proj1 (proj2 (comments_fetch_outcomes noCommentsEnv issue1
                           ratingFirst emptyTrace))
             (NetworkError "Failed to fetch")).
    left. reflexivity.
  - apply (proj1 (comments_fetch_outcomes commentsErrorEnv issue1 ratingFirst
                    emptyTrace) (mkResponse 500 (inl (SyntaxError "")))).
    + reflexivity.
    + reflexivity.
Defined.


(** ** C5: skipping issues that have an open pull request *)

Lemma checkForOpenPRs_run env i t :
  checkForOpenPRs env i t = (Returned (hasOpenPr env i), t).
Proof.
  unfold hasOpenPr, checkForOpenPRs, try_catch, bind, fetch, awaitJson.
  destruct (timeline_api env (url i +:+ "/timeline")) as [e|response];
    [done|].
  unfold ret, throw. destruct (ok response); simpl; [|done].
  by destruct (json response).
Qed.

Lemma processCurrentIssue_run env cur s t :
  processCurrentIssue env cur s t =
  if hasOpenPr env cur then (Returned (skipIssue (checked s)), t)
  else generateSummaryForIssue env cur (checked s) t.
Proof.
  unfold processCurrentIssue, bind. rewrite checkForOpenPRs_run.
  by destruct (hasOpenPr env cur).
Qed.

Lemma depsChanged_same s s' :
  step s' = step s -> currentIndex s' = currentIndex s ->
  depsChanged s s' = false.
Proof.
  intros Hs Hi. unfold depsChanged.
  by rewrite Hs, Hi, !bool_decide_eq_true_2.
Qed.

Lemma depsChanged_skip s :
  step s = triage -> depsChanged s (skipIssue (checked s)) = true.
Proof.
  intros Hs. unfold depsChanged, skipIssue.
  destruct (hasNext (checked s)).
  - rewrite (bool_decide_eq_false_2 (currentIndex s = _)); [done|].
    destruct s; simpl; lia.
  - rewrite (bool_decide_eq_false_2 (step s = _)); [by rewrite orb_true_r|].
    destruct s; simpl in *; by subst.
Qed.

(** A run of the effect on an issue with an open pull request. *)
Lemma issueLifecycle_skip env fuel s t cur :
  step s = triage ->
  issues s !! currentIndex s = Some cur ->
  hasOpenPr env cur = true ->
  issueLifecycle env (S fuel) s t
  = issueLifecycle env fuel (skipIssue (checked s)) t.
Proof.
  intros Hs Hcur Hpr. simpl. rewrite Hs, Hcur. unfold bind.
  rewrite processCurrentIssue_run, Hpr.
  by rewrite depsChanged_skip.
Qed.

(** A run of the effect on an issue without one: the issue is put before
    the operator, with a blank rating. *)
Lemma issueLifecycle_stay env fuel s t cur :
  step s = triage ->
  issues s !! currentIndex s = Some cur ->
  hasOpenPr env cur = false ->
  exists s' t',
    issueLifecycle env (S fuel) s t = (Returned s', t') /\
    step s' = triage /\ issues s' = issues s /\
    currentIndex s' = currentIndex s /\ scores s' = scores s /\
    currentRating s' = blankRating /\
    isCheckingPr s' = false /\ isSummarizing s' = false.
Proof.
  intros Hs Hcur Hpr. simpl. rewrite Hs, Hcur. unfold bind.
  rewrite processCurrentIssue_run, Hpr.
  destruct (generateSummaryForIssue_frame env cur (checked s) t)
    as (s' & t' & -> & Hsum & Hst & His & Hidx & Hsc & Hrt & Hck).
  assert (Hst' : step s' = step s) by (rewrite Hst; by destruct s).
  assert (Hidx' : currentIndex s' = currentIndex s)
    by (rewrite Hidx; by destruct s).
  rewrite (depsChanged_same s s' Hst' Hidx').
  exists s', t'. split; [done|].
  rewrite Hsum, Hst', His, Hidx', Hsc, Hrt, Hck.
  by destruct s.
Qed.

(** Where the effect comes to rest: on the first issue, from the current
    index on, that has no open pull request, every issue before it having
    been skipped; or in the complete step when every remaining issue has
    one. The scores are never touched. *)
Lemma issueLifecycle_settles env :
  forall fuel s t,
    step s = triage ->
    length (issues s) - currentIndex s <= fuel ->
    exists s' t',
      issueLifecycle env fuel s t = (Returned s', t') /\
      scores s' = scores s /\ issues s' = issues s /\
      ((step s' = triage /\
        currentIndex s <= currentIndex s' /\
        (exists cur, issues s !! currentIndex s' = Some cur /\
                     hasOpenPr env cur = false) /\
        (forall j cur, currentIndex s <= j < currentIndex s' ->
                       issues s !! j = Some cur -> hasOpenPr env cur = true) /\
        currentRating s' = blankRating /\
        isCheckingPr s' = false /\ isSummarizing s' = false) \/
       (step s' = complete /\
        is_Some (issues s !! currentIndex s) /\
        (forall j cur, currentIndex s <= j ->
                       issues s !! j = Some cur -> hasOpenPr env cur = true)) \/
       (issues s !! currentIndex s = None /\ s' = s)).
Proof.
  induction fuel as [|fuel IH]; intros s t Hs Hfuel.
  - (* no issue left at this index *)
    assert (Hnone : issues s !! currentIndex s = None)
      by (apply lookup_ge_None; lia).
    exists s, t. simpl. rewrite Hs, Hnone. by eauto 10.
  - destruct (issues s !! currentIndex s) as [cur|] eqn:Hcur.
    2:{ exists s, t. simpl. rewrite Hs, Hcur. by eauto 10. }
    pose proof (lookup_lt_Some _ _ _ Hcur) as Hlt.
    destruct (hasOpenPr env cur) eqn:Hpr.
    + rewrite (issueLifecycle_skip env fuel s t cur Hs Hcur Hpr).
      assert (Hn : hasNext (checked s) = hasNext s) by (by destruct s).
      unfold skipIssue. rewrite Hn.
      destruct (hasNext s) eqn:Hnext.
      * apply hasNext_spec in Hnext.
        set (s1 := setCurrentIndex (currentIndex (checked s) + 1) (checked s)).
        assert (H1 : step s1 = triage) by (by destruct s).
        assert (H2 : issues s1 = issues s) by (by destruct s).
        assert (H3 : currentIndex s1 = currentIndex s + 1) by (by destruct s).
        assert (H4 : scores s1 = scores s) by (by destruct s).
        destruct (IH s1 t H1) as (s' & t' & Hrun & Hsc & His & Hcases);
          [rewrite H2, H3; lia|].
        exists s', t'. split; [done|].
        rewrite Hsc, His, H2, H4. split; [done|]. split; [done|].
        rewrite H2, H3 in Hcases.
        destruct Hcases as [(Ht & Hle & Hfirst & Hbefore & Hrest)
                           | [(Hc & _ & Hall) | [Hnone _]]].
        -- left. split; [done|]. split; [lia|]. split; [done|].
           split; [|done]. intros j c Hj Hjc.
           destruct (decide (j = currentIndex s)) as [->|Hne].
           ++ congruence.
           ++ apply (Hbefore j c); [lia|done].
        -- right; left. split; [done|]. split; [eauto|].
           intros j c Hj Hjc.
           destruct (decide (j = currentIndex s)) as [->|Hne].
           ++ congruence.
           ++ apply (Hall j c); [lia|done].
        -- apply lookup_ge_None in Hnone. lia.
      * apply not_true_iff_false in Hnext. rewrite hasNext_spec in Hnext.
        rewrite issueLifecycle_idle by (by destruct s).
        exists (setStep complete (checked s)), t.
        split; [done|]. split; [by destruct s|]. split; [by destruct s|].
        right; left. split; [by destruct s|]. split; [eauto|].
        intros j c Hj Hjc. pose proof (lookup_lt_Some _ _ _ Hjc) as Hjlt.
        assert (j = currentIndex s) as -> by lia. congruence.
    + destruct (issueLifecycle_stay env fuel s t cur Hs Hcur Hpr)
        as (s' & t' & Hrun & Hst & His & Hidx & Hsc & Hrt & Hck & Hsm).
      exists s', t'. split; [done|]. split; [done|]. split; [done|].
      left. rewrite Hidx. split; [done|]. split; [lia|].
      split; [eauto|]. split; [|done]. intros j c Hj. lia.
Qed.

Lemma issueLifecycle_unfold env fuel s :
  issueLifecycle env (S fuel) s =
  match step s, issues s !! currentIndex s with
  | triage, Some cur =>
      s' <- processCurrentIssue env cur s ;;
      if depsChanged s s' then issueLifecycle env fuel s' else ret s'
  | _, _ => ret s
  end.
Proof. reflexivity. Qed.

(** The fuel given by [runEffect] is enough: with at least that much, one
    more unit changes nothing. *)
Lemma issueLifecycle_fuel env :
  forall fuel s t,
    length (issues s) - currentIndex s <= fuel ->
    issueLifecycle env (S fuel) s t = issueLifecycle env fuel s t.
Proof.
  induction fuel as [|fuel IH]; intros s t Hfuel.
  - assert (Hnone : issues s !! currentIndex s = None)
      by (apply lookup_ge_None; lia).
    simpl. rewrite Hnone. by destruct (step s).
  - destruct (decide (step s = triage)) as [Hs|Hs].
    2:{ by rewrite !issueLifecycle_idle. }
    destruct (issues s !! currentIndex s) as [cur|] eqn:Hcur.
    2:{ simpl. by rewrite Hs, Hcur. }
    destruct (hasOpenPr env cur) eqn:Hpr.
    + rewrite !(issueLifecycle_skip env _ s t cur Hs Hcur Hpr).
      destruct (decide (step (skipIssue (checked s)) = triage)) as [Hs'|Hs'].
      2:{ by rewrite !issueLifecycle_idle. }
      apply IH. unfold skipIssue in *.
      assert (Hn : hasNext (checked s) = hasNext s) by (by destruct s).
      rewrite Hn in *. destruct (hasNext s).
      * destruct s; simpl in *. lia.
      * destruct s; simpl in *. discriminate.
    + rewrite (issueLifecycle_unfold env (S fuel) s),
        (issueLifecycle_unfold env fuel s).
      rewrite Hs, Hcur. unfold bind.
      rewrite processCurrentIssue_run, Hpr.
      destruct (generateSummaryForIssue_frame env cur (checked s) t)
        as (s' & t' & -> & _ & Hst & _ & Hidx & _).
      rewrite depsChanged_same; [done| |].
      * rewrite Hst. by destruct s.
      * rewrite Hidx. by destruct s.
Qed.






(** * Further properties of the code *)

(** ** More on strings *)

Lemma append_assoc (a b c : string) : (a +:+ b) +:+ c = a +:+ b +:+ c.
Proof.
  induction a as [|x a IH]; [reflexivity|].
  change (String x ((a +:+ b) +:+ c) = String x (a +:+ b +:+ c)).
  by rewrite IH.
Qed.

Lemma append_cons (x : ascii) (a b : string) :
  String x a +:+ b = String x (a +:+ b).
Proof. reflexivity. Qed.

(** Splitting at a separator that is known to be there. *)
Lemma split_app sep a b :
  split sep (a +:+ String sep b) = split sep a ++ split sep b.
Proof.
  induction a as [|c a IH].
  - change ("" +:+ String sep b) with (String sep b). simpl.
    by rewrite Ascii.eqb_refl.
  - rewrite append_cons. simpl.
    destruct (Ascii.eqb c sep); [by rewrite IH|].
    rewrite IH. pose proof (split_nonempty sep a).
    by destruct (split sep a).
Qed.

Lemma split_clean sep s : occurrences sep s = 0 -> split sep s = [s].
Proof.
  induction s as [|c s IH]; simpl; [done|].
  destruct (Ascii.eqb c sep); [done|]. intros H. by rewrite IH.
Qed.

(** Joining segments that are free of the separator, then splitting, gives
    the segments back (for at least one segment: the empty array joins to
    the empty string, which splits into one empty segment). *)
Lemma split_join sep segs :
  segs <> [] ->
  Forall (fun seg => occurrences sep seg = 0) segs ->
  split sep (join sep segs) = segs.
Proof.
  intros Hne Hclean. induction Hclean as [|seg rest Hseg Hrest IH]; [done|].
  destruct rest as [|seg' rest'].
  - simpl. by apply split_clean.
  - change (join sep (seg :: seg' :: rest'))
      with (seg +:+ String sep (join sep (seg' :: rest'))).
    rewrite split_app, split_clean by done. by rewrite IH.
Qed.

Lemma removeTrailingSlash_app s : removeTrailingSlash (s +:+ "/") = s.
Proof.
  induction s as [|c s IH]; [reflexivity|].
  rewrite append_cons. destruct s as [|d s']; [reflexivity|].
  rewrite append_cons in *.
  change (removeTrailingSlash (String c (String d (s' +:+ "/"))))
    with (String c (removeTrailingSlash (String d (s' +:+ "/")))).
  by rewrite IH.
Qed.

Lemma endsWith_occurs c s : endsWith c s = true -> 0 < occurrences c s.
Proof.
  induction s as [|d s IH]; [discriminate|].
  destruct s as [|e s'].
  - simpl. intros ->. lia.
  - change (endsWith c (String d (String e s')))
      with (endsWith c (String e s')).
    intros H. apply IH in H. simpl in *. lia.
Qed.

Lemma endsWith_app c a b :
  b <> "" -> endsWith c (a +:+ b) = endsWith c b.
Proof.
  intros Hb. induction a as [|d a IH]; [reflexivity|].
  rewrite append_cons.
  destruct (a +:+ b) as [|e r] eqn:Hab.
  - destruct a; [by simpl in Hab|discriminate].
  - exact IH.
Qed.

Lemma removeTrailingSlash_id s :
  endsWith "/" s = false -> removeTrailingSlash s = s.
Proof.
  intros H. pose proof (removeTrailingSlash_spec s) as Hs.
  by rewrite H in Hs.
Qed.

(** ** X1-X3: more on the repository-URL parser *)

(** X1. A URL of the form prefix/owner/repo, where owner and repo contain
    no "/" and repo is not empty, parses to exactly that owner and repo,
    with or without one trailing slash; so does the bare form owner/repo. *)
Theorem parseRepoUrl_canonical (prefix o r : string) :
  occurrences "/" o = 0 ->
  occurrences "/" r = 0 ->
  r <> "" ->
  parseRepoUrl (prefix +:+ "/" +:+ o +:+ "/" +:+ r)
    = Some {| owner := Some o; repo := Some r |} /\
  parseRepoUrl (prefix +:+ "/" +:+ o +:+ "/" +:+ r +:+ "/")
    = Some {| owner := Some o; repo := Some r |} /\
  parseRepoUrl (o +:+ "/" +:+ r)
    = Some {| owner := Some o; repo := Some r |}.
Proof.
  intros Ho Hr Hne.
  assert (Hend : forall a, endsWith "/" (a +:+ "/" +:+ r) = false).
  { intros a. change (a +:+ "/" +:+ r) with (a +:+ String "/" r).
    rewrite endsWith_app by discriminate.
    destruct r as [|x r']; [done|].
    change (endsWith "/" (String "/" (String x r')))
      with (endsWith "/" (String x r')).
    destruct (endsWith "/" (String x r')) eqn:E; [|done].
    apply endsWith_occurs in E. lia. }
  assert (Hbare : forall a,
    rev (split "/" (a +:+ "/" +:+ o +:+ "/" +:+ r))
    = r :: o :: rev (split "/" a)).
  { intros a.
    change (a +:+ "/" +:+ o +:+ "/" +:+ r)
      with (a +:+ String "/" (o +:+ String "/" r)).
    rewrite !split_app, (split_clean "/" o Ho), (split_clean "/" r Hr).
    rewrite !rev_app_distr. reflexivity. }
  assert (H1 : forall a,
    parseRepoUrl (a +:+ "/" +:+ o +:+ "/" +:+ r)
    = Some {| owner := Some o; repo := Some r |}).
  { intros a. rewrite parseRepoUrl_rev.
    rewrite removeTrailingSlash_id.
    - by rewrite Hbare.
    - replace (a +:+ "/" +:+ o +:+ "/" +:+ r)
        with ((a +:+ "/" +:+ o) +:+ "/" +:+ r)
        by (by rewrite !append_assoc).
      apply Hend. }
  split; [apply H1|]. split.
  - rewrite parseRepoUrl_rev.
    replace (prefix +:+ "/" +:+ o +:+ "/" +:+ r +:+ "/")
      with ((prefix +:+ "/" +:+ o +:+ "/" +:+ r) +:+ "/")
      by (by rewrite !append_assoc).
    by rewrite removeTrailingSlash_app, Hbare.
  - rewrite parseRepoUrl_rev. rewrite removeTrailingSlash_id by apply Hend.
    change (o +:+ "/" +:+ r) with (o +:+ String "/" r).
    by rewrite split_app, (split_clean "/" o Ho), (split_clean "/" r Hr).
Qed.

Lemma parseRepoUrl_canonical_witness :
  parseRepoUrl ("https://github.com" +:+ "/" +:+ "facebook" +:+ "/" +:+ "react")
  = Some {| owner := Some "facebook"; repo := Some "react" |}.
Proof.
  apply (parseRepoUrl_canonical "https://github.com" "facebook" "react");
    [reflexivity|reflexivity|discriminate].
Defined.

(** X2. Only one trailing slash is removed: an input ending in two
    slashes is accepted, with the empty string as repo and the segment
    before the two slashes as owner. *)
Theorem parseRepoUrl_double_slash (s : string) :
  exists o,
    last (split "/" s) = Some o /\
    parseRepoUrl (s +:+ "//")
    = Some {| owner := Some o; repo := Some "" |}.
Proof.
  rewrite parseRepoUrl_rev.
  replace (s +:+ "//") with ((s +:+ "/") +:+ "/")
    by (by rewrite append_assoc).
  rewrite removeTrailingSlash_app.
  change (s +:+ "/") with (s +:+ String "/" "").
  rewrite split_app. change (split "/" "") with [""].
  rewrite rev_app_distr. simpl.
  pose proof (split_nonempty "/" s) as Hne.
  destruct (split "/" s) as [|x l] using rev_ind; [done|].
  exists x. rewrite last_snoc, rev_app_distr. done.
Qed.

Lemma parseRepoUrl_segments_aux (url : string) (repoData : RepoData) :
  parseRepoUrl url = Some repoData ->
  exists o r,
    owner repoData = Some o /\ repo repoData = Some r /\
    occurrences "/" o = 0 /\ occurrences "/" r = 0.
Proof.
  rewrite parseRepoUrl_rev.
  pose proof (split_segments_clean "/" (removeTrailingSlash url)) as Hclean.
  apply Forall_rev in Hclean.
  destruct (rev (split "/" (removeTrailingSlash url))) as [|r [|o rest]];
    [discriminate..|].
  intros [= <-]. exists o, r. simpl.
  inversion Hclean as [|? ? Hr Hrest]; subst.
  inversion Hrest; subst. done.
Qed.

(** X3. Whatever is parsed, both owner and repo are defined and neither
    contains a "/". *)
Theorem parseRepoUrl_segments (url : string) (repoData : RepoData) :
  parseRepoUrl url = Some repoData ->
  exists o r,
    owner repoData = Some o /\ repo repoData = Some r /\
    occurrences "/" o = 0 /\ occurrences "/" r = 0.
Proof. apply parseRepoUrl_segments_aux. Qed.

Lemma parseRepoUrl_segments_witness :
  exists o r,
    owner {| owner := Some "acme"; repo := Some "widget" |} = Some o /\
    repo {| owner := Some "acme"; repo := Some "widget" |} = Some r /\
    occurrences "/" o = 0 /\ occurrences "/" r = 0.
Proof.
  apply (parseRepoUrl_segments "https://github.com/acme/widget/").
  reflexivity.
Defined.

(** ** X4, X5: the search URL *)

Lemma chars_app (a b : string) :
  list_ascii_of_string (a +:+ b)
  = list_ascii_of_string a ++ list_ascii_of_string b.
Proof.
  induction a as [|x a IH]; [reflexivity|].
  rewrite append_cons. simpl. by rewrite IH.
Qed.

Lemma chars_inj (a b : string) :
  list_ascii_of_string a = list_ascii_of_string b -> a = b.
Proof.
  intros H. rewrite <- (string_of_list_ascii_of_string a),
    <- (string_of_list_ascii_of_string b). by rewrite H.
Qed.

Lemma append_inv_tail (a b c : string) : a +:+ c = b +:+ c -> a = b.
Proof.
  intros H. apply chars_inj.
  apply (f_equal list_ascii_of_string) in H. rewrite !chars_app in H.
  by apply app_inv_tail in H.
Qed.

Lemma append_inv_head (a b c : string) : a +:+ b = a +:+ c -> b = c.
Proof.
  induction a as [|x a IH]; [done|].
  rewrite !append_cons. intros [= H]. by apply IH.
Qed.

Lemma encodeURIComponent_cons c rest :
  encodeURIComponent (String c rest) =
  if isUnreserved c then String c (encodeURIComponent rest)
  else String "%" (String (hexDigit (N_of_ascii c / 16))
         (String (hexDigit (N_of_ascii c mod 16))
            (encodeURIComponent rest))).
Proof. reflexivity. Qed.

(** The two hexadecimal digits of an escape are unreserved characters,
    and they determine the escaped byte. *)
Lemma hexDigits_spec (c : ascii) :
  isUnreserved (hexDigit (N_of_ascii c / 16)) = true /\
  isUnreserved (hexDigit (N_of_ascii c mod 16)) = true /\
  ascii_of_N (16 * hexValue (hexDigit (N_of_ascii c / 16))
              + hexValue (hexDigit (N_of_ascii c mod 16))) = c.
Proof.
  destruct c as [[] [] [] [] [] [] [] []]; vm_compute; done.
Qed.

Lemma encodeURIComponent_alphabet (s : string) :
  Forall (fun c => isUnreserved c = true \/ c = "%"%char)
    (list_ascii_of_string (encodeURIComponent s)).
Proof.
  induction s as [|c s IH]; [constructor|].
  rewrite encodeURIComponent_cons.
  destruct (isUnreserved c) eqn:Hc; simpl.
  - constructor; [by left|done].
  - destruct (hexDigits_spec c) as (Hh & Hl & _).
    constructor; [by right|]. constructor; [by left|].
    constructor; [by left|done].
Qed.

Lemma encodeURIComponent_inj (a b : string) :
  encodeURIComponent a = encodeURIComponent b -> a = b.
Proof.
  revert b. induction a as [|c a IH]; intros [|d b].
  - done.
  - rewrite encodeURIComponent_cons. simpl.
    by destruct (isUnreserved d).
  - rewrite encodeURIComponent_cons. simpl.
    by destruct (isUnreserved c).
  - rewrite !encodeURIComponent_cons.
    destruct (isUnreserved c) eqn:Hc, (isUnreserved d) eqn:Hd.
    + intros [= -> H]. by rewrite (IH b H).
    + intros [= -> _]. discriminate.
    + intros [= <- _]. discriminate.
    + intros [= Hh Hl H].
      destruct (hexDigits_spec c) as (_ & _ & Hdc).
      destruct (hexDigits_spec d) as (_ & _ & Hdd).
      rewrite Hh, Hl, Hdd in Hdc. subst d. by rewrite (IH b H).
Qed.

Lemma safe_char_absent (c0 : ascii) (q : string) :
  isUnreserved c0 = false -> c0 <> "%"%char ->
  Forall (fun c => isUnreserved c = true \/ c = "%"%char)
    (list_ascii_of_string q) ->
  occurrences c0 q = 0.
Proof.
  intros Hu Hp. induction q as [|c q IH]; [done|].
  simpl. intros Hall. inversion Hall as [|? ? Hc Hrest]; subst.
  rewrite (IH Hrest).
  destruct (Ascii.eqb c c0) eqn:E; [|done].
  apply Ascii.eqb_eq in E. subst c0. destruct Hc; congruence.
Qed.

(** X4. The search URL is the fixed endpoint and the fixed sorting and
    paging parameters around the encoded query, and the encoded query
    consists of unreserved characters and percent signs only: whatever the
    owner and repo are, it contains no "&", "=", "#", "?", "/", "+" or
    space, so it cannot add or alter a parameter. *)
Theorem searchUrl_query_safe (repoData : RepoData) :
  exists q,
    searchUrl repoData =
      "https://api.github.com/search/issues?q=" +:+ q +:+
      "&sort=created&order=asc&per_page=100" /\
    Forall (fun c => isUnreserved c = true \/ c = "%"%char)
      (list_ascii_of_string q) /\
    occurrences "&" q = 0 /\ occurrences "=" q = 0 /\
    occurrences "#" q = 0 /\ occurrences "?" q = 0 /\
    occurrences "/" q = 0 /\ occurrences "+" q = 0 /\
    occurrences " " q = 0.
Proof.
  eexists. split; [reflexivity|].
  split; [apply encodeURIComponent_alphabet|].
  repeat split; (apply safe_char_absent;
    [reflexivity|discriminate|apply encodeURIComponent_alphabet]).
Qed.

(** X5. The search URL determines the repository: two inputs that parse
    and lead to the same search URL have parsed to the same owner and
    repo. *)
Theorem searchUrl_determines_repo (url1 url2 : string) (rd1 rd2 : RepoData) :
  parseRepoUrl url1 = Some rd1 ->
  parseRepoUrl url2 = Some rd2 ->
  searchUrl rd1 = searchUrl rd2 ->
  rd1 = rd2.
Proof.
  intros H1 H2 Hurl.
  destruct (parseRepoUrl_segments_aux url1 rd1 H1)
    as (o1 & r1 & Ho1 & Hr1 & Hc1 & _).
  destruct (parseRepoUrl_segments_aux url2 rd2 H2)
    as (o2 & r2 & Ho2 & Hr2 & Hc2 & _).
  destruct rd1 as [ow1 rp1], rd2 as [ow2 rp2]. simpl in *. subst.
  assert (Hshape : forall o r,
    searchUrl {| owner := Some o; repo := Some r |} =
    "https://api.github.com/search/issues?q=" +:+
    encodeURIComponent
      ("repo:" +:+ o +:+ "/" +:+ r +:+ " is:issue is:open -linked:pr") +:+
    "&sort=created&order=asc&per_page=100") by reflexivity.
  rewrite !Hshape in Hurl.
  apply append_inv_head, append_inv_tail, encodeURIComponent_inj in Hurl.
  apply append_inv_head in Hurl.
  assert (Hq : o1 +:+ String "/" r1 = o2 +:+ String "/" r2).
  { apply (append_inv_tail _ _ " is:issue is:open -linked:pr").
    rewrite !append_assoc. exact Hurl. }
  apply (f_equal (split "/")) in Hq.
  rewrite !split_app, (split_clean "/" o1 Hc1), (split_clean "/" o2 Hc2)
    in Hq.
  simpl in Hq. injection Hq as -> Hr.
  pose proof (f_equal (join "/") Hr) as Hj. rewrite !join_split in Hj.
  by subst.
Qed.

Lemma searchUrl_determines_repo_witness :
  {| owner := Some "acme"; repo := Some "widget" |}
  = {| owner := Some "acme"; repo := Some "widget" |}.
Proof.
  apply (searchUrl_determines_repo "https://github.com/acme/widget"
           "acme/widget/"); reflexivity.
Defined.

(** ** X6: how the search ends *)

(** X6. [handleFetchIssues] never throws and leaves the trace alone; it
    always ends with [loading] false and the scores untouched. It enters
    triage exactly in one case: the URL parses, the search resolves with an
    ok status and a body that parses, and the item list is present and not
    empty; the issues are then that list, the index is 0 and no error is
    shown. In every other case the step, issues and index stay as they
    were and an error text is shown: the invalid-URL text when the URL does
    not parse, the message of the transport or parse error, one of the
    three fixed texts for status 403, 404 and 422, the status code for any
    other non-ok status, and the no-open-issues text for an empty or
    missing item list. *)
Theorem handleFetchIssues_outcome (env : Env) (s : State) (t : Trace) :
  exists s',
    handleFetchIssues env s t = (Returned s', t) /\
    loading s' = false /\ scores s' = scores s /\
    ((exists repoData response data pureIssues,
        parseRepoUrl (repoUrl s) = Some repoData /\
        search_api env (searchUrl repoData) = Resolved response /\
        ok response = true /\ json response = inr data /\
        items data = Some pureIssues /\ pureIssues <> [] /\
        step s' = triage /\ issues s' = pureIssues /\
        currentIndex s' = 0 /\ error s' = None) \/
     (step s' = step s /\ issues s' = issues s /\
      currentIndex s' = currentIndex s /\
      exists reason,
        error s' = Some reason /\
        ((parseRepoUrl (repoUrl s) = None /\
          reason = "Invalid GitHub URL. Please use format: https://github.com/owner/repo") \/
         (exists repoData,
            parseRepoUrl (repoUrl s) = Some repoData /\
            match search_api env (searchUrl repoData) with
            | Rejected e => reason = message e
            | Resolved response =>
                if ok response then
                  match json response with
                  | inl e => reason = message e
                  | inr data =>
                      default [] (items data) = [] /\
                      reason = "No open issues (without linked PRs) found in this repository."
                  end
                else if (status response =? 403)%N then
                  reason = "GitHub API Rate Limit exceeded. Please provide a Token."
                else if (status response =? 404)%N then
                  reason = "Repository not found."
                else if (status response =? 422)%N then
                  reason = "Validation Failed. Please check the URL."
                else reason = "GitHub API Error: " +:+ pretty (status response)
            end)))).
Proof.
  unfold handleFetchIssues.
  destruct (parseRepoUrl (repoUrl s)) as [repoData|] eqn:Hparse.
  2:{ eexists. split; [reflexivity|]. split; [by destruct s|].
      split; [by destruct s|]. right.
      split; [by destruct s|]. split; [by destruct s|].
      split; [by destruct s|]. eexists. split; [by destruct s|].
      by left. }
  unfold bind, try_catch, fetch, awaitJson, ret, throw.
  destruct (search_api env (searchUrl repoData)) as [e|response] eqn:Hapi.
  { eexists. split; [reflexivity|]. split; [by destruct s|].
    split; [by destruct s|]. right.
    split; [by destruct s|]. split; [by destruct s|].
    split; [by destruct s|]. exists (message e). split; [by destruct s|].
    right. exists repoData. by rewrite Hapi. }
  destruct (ok response) eqn:Hok; cbn [negb].
  - destruct (json response) as [e|data] eqn:Hjson.
    { eexists. split; [reflexivity|]. split; [by destruct s|].
      split; [by destruct s|]. right.
      split; [by destruct s|]. split; [by destruct s|].
      split; [by destruct s|]. exists (message e). split; [by destruct s|].
      right. exists repoData. by rewrite Hapi, Hok, Hjson. }
    destruct (default [] (items data)) as [|i l] eqn:Hitems;
      cbn [length Nat.eqb].
    + eexists. split; [reflexivity|]. split; [by destruct s|].
      split; [by destruct s|]. right.
      split; [by destruct s|]. split; [by destruct s|].
      split; [by destruct s|]. eexists. split; [by destruct s|].
      right. exists repoData. by rewrite Hapi, Hok, Hjson, Hitems.
    + eexists. split; [reflexivity|]. split; [by destruct s|].
      split; [by destruct s|]. left.
      exists repoData, response, data, (i :: l).
      destruct (items data) as [l'|] eqn:Hit; [|discriminate].
      simpl in Hitems. subst l'.
      repeat split; try done; by destruct s.
  - assert (Hfail : forall reason,
      exists s',
        (Returned (setLoading false
           (setError (Some reason) (setLoading true (setError None s)))), t)
        = (Returned s', t) /\
        loading s' = false /\ scores s' = scores s /\
        step s' = step s /\ issues s' = issues s /\
        currentIndex s' = currentIndex s /\ error s' = Some reason).
    { intros reason. eexists. split; [reflexivity|]. by destruct s. }
    destruct (status response =? 403)%N eqn:H403;
      [|destruct (status response =? 404)%N eqn:H404;
        [|destruct (status response =? 422)%N eqn:H422]];
      cbn [message];
      match goal with
      | |- context [setError (Some ?r) _] =>
          destruct (Hfail r) as (s' & Hrun & Hld & Hsc & Hst & His & Hidx & Herr)
      end;
      (exists s'; split; [exact Hrun|]; split; [exact Hld|];
       split; [exact Hsc|]; right; split; [exact Hst|];
       split; [exact His|]; split; [exact Hidx|];
       eexists; split; [exact Herr|]; right; exists repoData;
       by rewrite Hapi, Hok, ?H403, ?H404, ?H422).
Qed.

(** ** X7: counting valid entries *)

Lemma countValid_perm (l l' : list ScoreEntry) :
  l ≡ₚ l' ->
  length (List.filter isValidScore l) = length (List.filter isValidScore l').
Proof.
  induction 1 as [|x l l' _ IH|x y l|l l' l'' _ IH1 _ IH2]; simpl.
  - done.
  - destruct (isValidScore x); simpl; lia.
  - destruct (isValidScore x), (isValidScore y); simpl; lia.
  - lia.
Qed.

Lemma isValidScore_newEntry rating cur :
  isValidScore (newEntry rating cur) = isValidScore rating.
Proof. reflexivity. Qed.

Lemma validCount_insert_fresh (m : gmap Z ScoreEntry) k e :
  m !! k = None ->
  validCount (<[k := e]> m)
  = validCount m + (if isValidScore e then 1 else 0).
Proof.
  intros Hk. unfold validCount, values.
  rewrite (countValid_perm _ (e :: (map_to_list m).*2)).
  - simpl. destruct (isValidScore e); simpl; lia.
  - by rewrite map_to_list_insert.
Qed.

Lemma validCount_delete (m : gmap Z ScoreEntry) k e :
  m !! k = Some e ->
  validCount m
  = validCount (delete k m) + (if isValidScore e then 1 else 0).
Proof.
  intros Hk. rewrite <- (insert_delete_id m k e Hk) at 1.
  apply validCount_insert_fresh, lookup_delete_eq.
Qed.

Lemma validCount_commit_le scores cur rating :
  validCount (commit scores cur rating) <= validCount scores + 1.
Proof.
  unfold commit. rewrite <- insert_delete_eq.
  rewrite validCount_insert_fresh by apply lookup_delete_eq.
  destruct (scores !! number cur) as [e|] eqn:Hk.
  - rewrite (validCount_delete scores _ e Hk).
    destruct (isValidScore _), (isValidScore e); lia.
  - rewrite delete_id by done. destruct (isValidScore _); lia.
Qed.

Lemma validCount_le_size (m : gmap Z ScoreEntry) : validCount m <= size m.
Proof.
  unfold validCount, values.
  rewrite <- length_map_to_list, <- (length_fmap snd (map_to_list m)).
  induction ((map_to_list m).*2) as [|x l IH]; simpl; [lia|].
  destruct (isValidScore x); simpl; lia.
Qed.

(** X7. How a commit moves the count of valid entries. For an issue
    number not yet in the mapping the count goes up by one when the rating
    is valid and stays when it is not; for a number already present the old
    entry's contribution is replaced by the new one's (so re-rating a valid
    entry with an "x" lowers the count). In every case the count rises by
    at most one, and it never exceeds the number of entries. *)
Theorem validCount_commit (scores : gmap Z ScoreEntry) (cur : Issue)
    (rating : ScoreEntry) :
  match scores !! number cur with
  | None =>
      validCount (commit scores cur rating)
      = validCount scores + (if isValidScore rating then 1 else 0)
  | Some old =>
      validCount (commit scores cur rating)
        + (if isValidScore old then 1 else 0)
      = validCount scores + (if isValidScore rating then 1 else 0)
  end /\
  validCount (commit scores cur rating) <= validCount scores + 1 /\
  validCount (commit scores cur rating) <= size (commit scores cur rating).
Proof.
  split; [|split; [apply validCount_commit_le|apply validCount_le_size]].
  destruct (scores !! number cur) as [old|] eqn:Hk.
  - unfold commit. rewrite <- insert_delete_eq.
    rewrite validCount_insert_fresh by apply lookup_delete_eq.
    rewrite (validCount_delete scores _ old Hk), isValidScore_newEntry. lia.
  - unfold commit. rewrite validCount_insert_fresh by done.
    by rewrite isValidScore_newEntry.
Qed.


(** ** X8: what the summarizer hands back *)

Lemma attemptResult_nonblank answer v :
  attemptResult answer = inr v -> v <> "".
Proof.
  destruct answer as [e|response]; simpl; [done|].
  destruct (ok response); simpl; [|done].
  destruct (json response) as [e|data]; [done|].
  intros [= <-]. by destruct (candidateText data) as [[|c rest]|].
Qed.

(** The summarizer either returns a non-empty text or throws. *)
Lemma fetchGeminiSummary_result env textToSummarize key t :
  (exists v t',
     fetchGeminiSummary env textToSummarize key t = (Returned (Some v), t') /\
     v <> "") \/
  (exists e t', fetchGeminiSummary env textToSummarize key t = (Thrown e, t')).
Proof.
  destruct (geminiLoop_spec env (geminiUrl key)
              (geminiPrompt textToSummarize) maxRetries 0 (S maxRetries) t)
    as (k & t' & _ & _ & _ & _ & _ & Hrun); [reflexivity|lia|].
  unfold fetchGeminiSummary. rewrite Hrun.
  destruct (attemptResult _) as [e|v] eqn:Hres.
  - right. by exists e, t'.
  - left. exists v, t'. split; [done|]. by eapply attemptResult_nonblank.
Qed.

(** X8. [fetchGeminiSummary] never returns an undefined or empty
    summary: it returns a non-empty text or throws. When the first answer
    is ok and parses but holds no text along
    [candidates[0].content.parts[0].text] (or an empty one), the summary
    returned is the fixed text "Could not generate summary.", after that
    single request and without any sleep. *)
Theorem fetchGeminiSummary_never_blank
    (env : Env) (textToSummarize key : string) (t : Trace) :
  match (fetchGeminiSummary env textToSummarize key t).1 with
  | Returned (Some v) => v <> ""
  | Returned None => False
  | Thrown _ => True
  end /\
  (forall response data,
     gemini_api env (length (posts t)) = Resolved response ->
     ok response = true ->
     json response = inr data ->
     candidateText data = None \/ candidateText data = Some "" ->
     fetchGeminiSummary env textToSummarize key t =
       (Returned (Some "Could not generate summary."),
        recordPost (geminiUrl key) (geminiPrompt textToSummarize) t)).
Proof.
  split.
  - destruct (fetchGeminiSummary_result env textToSummarize key t)
      as [(v & t' & -> & Hv) | (e & t' & ->)]; done.
  - intros response data Hapi Hok Hjson Htext.
    apply geminiLoop_success; [unfold maxRetries; lia|].
    unfold attemptResult. rewrite Hapi, Hok, Hjson. simpl.
    by destruct Htext as [-> | ->].
Qed.

Lemma fetchGeminiSummary_never_blank_witness :
  fetchGeminiSummary emptyAnswerEnv "Title: Crash on start" "key" emptyTrace
  = (Returned (Some "Could not generate summary."),
     recordPost (geminiUrl "key") (geminiPrompt "Title: Crash on start")
       emptyTrace).
Proof.
  apply (proj2 (fetchGeminiSummary_never_blank emptyAnswerEnv
                  "Title: Crash on start" "key" emptyTrace)
           (mkResponse 200 (inr {| candidates := None |}))
           {| candidates := None |});
    [reflexivity..|by left].
Defined.

(** ** X10: the rating buttons and the validator *)

Lemma option_valid_iff v :
  v ∈ ratingOptions -> includes validValues v = true <-> v <> "x".
Proof.
  unfold ratingOptions. intros H.
  repeat (apply elem_of_cons in H as [->|H]); [done..|].
  by apply not_elem_of_nil in H.
Qed.

(** X10. For a rating whose three scores come from the rating buttons
    (x, 1, 2, 3, 4, 5), the entry counts as valid exactly when none of the
    three is "x". *)
Theorem isValidScore_of_options (e : ScoreEntry) :
  ambiguity e ∈ ratingOptions ->
  scale e ∈ ratingOptions ->
  novelty e ∈ ratingOptions ->
  isValidScore e = true <->
  ambiguity e <> "x" /\ scale e <> "x" /\ novelty e <> "x".
Proof.
  intros Ha Hs Hn. unfold isValidScore.
  rewrite !andb_true_iff, !option_valid_iff by done. tauto.
Qed.

Lemma isValidScore_of_options_witness :
  isValidScore sampleRating = true <->
  ambiguity sampleRating <> "x" /\ scale sampleRating <> "x" /\
  novelty sampleRating <> "x".
Proof.
  apply (isValidScore_of_options sampleRating);
    unfold ratingOptions; simpl; repeat constructor.
Defined.


(** ** X11-X13: the exported document *)

Lemma occurrences_app c (a b : string) :
  occurrences c (a +:+ b) = occurrences c a + occurrences c b.
Proof.
  induction a as [|x a IH]; [reflexivity|].
  rewrite append_cons. simpl. rewrite IH. lia.
Qed.

Lemma occurrences_cons c d (rest : string) :
  occurrences c (String d rest)
  = (if Ascii.eqb d c then 1 else 0) + occurrences c rest.
Proof. reflexivity. Qed.

Lemma occurrences_join c sep (cells : list string) :
  Ascii.eqb sep c = false ->
  Forall (fun v => occurrences c v = 0) cells ->
  occurrences c (join sep cells) = 0.
Proof.
  intros Hsep. induction 1 as [|v rest Hv Hrest IH]; [reflexivity|].
  destruct rest as [|v' rest']; [exact Hv|].
  change (join sep (v :: v' :: rest'))
    with (v +:+ String sep (join sep (v' :: rest'))).
  rewrite occurrences_app.
  change (occurrences c (String sep (join sep (v' :: rest'))))
    with ((if Ascii.eqb sep c then 1 else 0)
          + occurrences c (join sep (v' :: rest'))).
  rewrite Hsep, Hv, IH. reflexivity.
Qed.

Lemma join_snoc sep (cells : list string) (v : string) :
  cells <> [] -> join sep (cells ++ [v]) = join sep cells +:+ String sep v.
Proof.
  intros Hne. induction cells as [|x rest IH]; [done|].
  destruct rest as [|y rest'].
  - reflexivity.
  - change (join sep ((x :: y :: rest') ++ [v]))
      with (x +:+ String sep (join sep ((y :: rest') ++ [v]))).
    rewrite IH by done.
    change (join sep (x :: y :: rest'))
      with (x +:+ String sep (join sep (y :: rest'))).
    by rewrite append_assoc.
Qed.

Lemma doubleQuotes_occurrences c s :
  Ascii.eqb dquote c = false ->
  occurrences c (doubleQuotes s) = occurrences c s.
Proof.
  intros Hc. induction s as [|x s IH]; [reflexivity|].
  change (doubleQuotes (String x s)) with
    (if Ascii.eqb x dquote
     then String dquote (String dquote (doubleQuotes s))
     else String x (doubleQuotes s)).
  destruct (Ascii.eqb x dquote) eqn:Hx.
  - apply Ascii.eqb_eq in Hx. subst x.
    change (occurrences c (String dquote (String dquote (doubleQuotes s))))
      with ((if Ascii.eqb dquote c then 1 else 0)
            + ((if Ascii.eqb dquote c then 1 else 0)
               + occurrences c (doubleQuotes s))).
    change (occurrences c (String dquote s))
      with ((if Ascii.eqb dquote c then 1 else 0) + occurrences c s).
    rewrite Hc, IH. reflexivity.
  - change (occurrences c (String x (doubleQuotes s)))
      with ((if Ascii.eqb x c then 1 else 0)
            + occurrences c (doubleQuotes s)).
    by rewrite IH.
Qed.

(** Decimal numerals consist of digits and, for negative numbers, a
    leading minus sign. *)
Lemma pretty_N_char_digit x c :
  (N_of_ascii c <? 48)%N || (57 <? N_of_ascii c)%N = true ->
  Ascii.eqb (pretty_N_char x) c = false.
Proof.
  intros Hc. apply Ascii.eqb_neq. intros <-.
  unfold pretty_N_char in Hc. by repeat case_match.
Qed.

Lemma pretty_N_go_occurrences c x s :
  (N_of_ascii c <? 48)%N || (57 <? N_of_ascii c)%N = true ->
  occurrences c (pretty_N_go x s) = occurrences c s.
Proof.
  intros Hc. revert s.
  induction (N.lt_wf_0 x) as [x _ IH]; intros s.
  assert (x = 0 \/ 0 < x)%N as [->|Hpos] by lia.
  - by rewrite pretty_N_go_0.
  - rewrite pretty_N_go_step by done.
    rewrite IH by (by apply N.div_lt). simpl.
    by rewrite pretty_N_char_digit.
Qed.

Lemma pretty_Z_occurrences c (z : Z) :
  (N_of_ascii c <? 48)%N || (57 <? N_of_ascii c)%N = true ->
  Ascii.eqb "-" c = false ->
  occurrences c (pretty z) = 0.
Proof.
  intros Hc Hminus.
  assert (HN : forall n : N, occurrences c (pretty n) = 0).
  { intros n. unfold pretty, pretty_N. case_decide.
    - change (occurrences c "0")
        with ((if Ascii.eqb (pretty_N_char 0) c then 1 else 0) + 0).
      by rewrite pretty_N_char_digit.
    - by rewrite pretty_N_go_occurrences. }
  destruct z as [|q|q].
  - apply (HN 0%N).
  - apply (HN (Npos q)).
  - change (pretty (Z.neg q)) with ("-" +:+ pretty (Npos q)).
    rewrite occurrences_app, HN.
    change (occurrences c "-") with ((if Ascii.eqb "-" c then 1 else 0) + 0).
    by rewrite Hminus.
Qed.

Lemma readQuotedBody_doubleQuotes t :
  readQuotedBody (doubleQuotes t +:+ String dquote "") = Some t.
Proof.
  induction t as [|c t IH]; [reflexivity|].
  simpl doubleQuotes. destruct (Ascii.eqb c dquote) eqn:Hc.
  - apply Ascii.eqb_eq in Hc. subst c.
    rewrite !append_cons.
    change (readQuotedBody
              (String dquote (String dquote
                 (doubleQuotes t +:+ String dquote ""))))
      with (String dquote <$>
              readQuotedBody (doubleQuotes t +:+ String dquote "")).
    by rewrite IH.
  - rewrite append_cons.
    change (readQuotedBody
              (String c (doubleQuotes t +:+ String dquote "")))
      with (if Ascii.eqb c dquote then
              match doubleQuotes t +:+ String dquote "" with
              | "" => Some ""
              | String d rest' =>
                  if Ascii.eqb d dquote
                  then String dquote <$> readQuotedBody rest' else None
              end
            else String c <$>
                   readQuotedBody (doubleQuotes t +:+ String dquote "")).
    by rewrite Hc, IH.
Qed.

(** X11. The title cell loses nothing: reading it back as a quoted CSV
    field gives the title, whatever quotes, commas or line breaks it
    contains. An entry without a title is exported with the text
    "undefined" in that cell. *)
Theorem quotedTitle_roundtrip :
  (forall t : string, readQuotedField (quotedTitle (Some t)) = Some t) /\
  readQuotedField (quotedTitle None) = Some "undefined".
Proof.
  split; [|reflexivity].
  intros t. unfold quotedTitle, readQuotedField. simpl.
  apply readQuotedBody_doubleQuotes.
Qed.

Lemma csvRow_clean c (e : ScoreEntry) :
  (N_of_ascii c <? 48)%N || (57 <? N_of_ascii c)%N = true ->
  Ascii.eqb "-" c = false -> Ascii.eqb "," c = false ->
  Ascii.eqb dquote c = false ->
  occurrences c "undefined" = 0 -> occurrences c "Yes" = 0 ->
  occurrences c "No" = 0 ->
  occurrences c (default "" (entryTitle e)) = 0 ->
  occurrences c (default "" (entryUrl e)) = 0 ->
  occurrences c (type e) = 0 -> occurrences c (ambiguity e) = 0 ->
  occurrences c (scale e) = 0 -> occurrences c (novelty e) = 0 ->
  occurrences c (join "," (csvRow e)) = 0.
Proof.
  intros Hdigit Hminus Hcomma Hquote Hund Hyes Hno Ht Hu Hty Ha Hs Hn.
  apply occurrences_join; [done|]. unfold csvRow.
  repeat constructor; try done.
  - destruct (issueNumber e) as [z|]; [|done]. simpl.
    by apply pretty_Z_occurrences.
  - unfold quotedTitle.
    rewrite occurrences_cons, occurrences_app, occurrences_cons, Hquote.
    destruct (entryTitle e) as [ti|].
    + change (interpolate (doubleQuotes <$> Some ti))
        with (doubleQuotes ti).
      rewrite doubleQuotes_occurrences by done.
      change (default "" (Some ti)) with ti in Ht. by rewrite Ht.
    + change (interpolate (doubleQuotes <$> None)) with "undefined".
      by rewrite Hund.
  - by destruct (isValidScore e).
Qed.

(** X12. When no title, URL, classification or score of the entries
    contains a line break, splitting the document at line breaks gives the
    header line followed by exactly one line per entry, in the order of the
    entries. *)
Theorem csvContent_lines (entries : list ScoreEntry) :
  Forall (fun e =>
    occurrences (ascii_of_nat 10) (default "" (entryTitle e)) = 0 /\
    occurrences (ascii_of_nat 10) (default "" (entryUrl e)) = 0 /\
    occurrences (ascii_of_nat 10) (type e) = 0 /\
    occurrences (ascii_of_nat 10) (ambiguity e) = 0 /\
    occurrences (ascii_of_nat 10) (scale e) = 0 /\
    occurrences (ascii_of_nat 10) (novelty e) = 0) entries ->
  split (ascii_of_nat 10) (csvContent entries)
  = join "," csvHeaders :: map (fun e => join "," (csvRow e)) entries.
Proof.
  intros Hclean. unfold csvContent. apply split_join; [done|].
  constructor; [reflexivity|].
  apply Forall_map. eapply Forall_impl; [exact Hclean|].
  intros e (Ht & Hu & Hty & Ha & Hs & Hn).
  by apply csvRow_clean.
Qed.

Lemma csvContent_lines_witness :
  split (ascii_of_nat 10) (csvContent [quotingEntry])
  = [join "," csvHeaders; join "," (csvRow quotingEntry)].
Proof.
  apply (csvContent_lines [quotingEntry]).
  repeat constructor.
Defined.

(** X13. Whatever the other cells contain, the row of a committed entry
    whose issue number is below 2^53 in absolute value (the range in which
    JavaScript prints an integer with exactly its decimal digits) starts
    with the decimal issue number and ends with the verdict of the
    validator: cutting the row at commas, the first piece is the issue
    number and the last piece is "Yes" when the entry is valid and "No"
    when it is not. *)
Theorem csvRow_ends (rating : ScoreEntry) (cur : Issue) :
  (Z.abs (number cur) < decimalBound)%Z ->
  let row := join "," (csvRow (newEntry rating cur)) in
  head (split "," row) = Some (pretty (number cur)) /\
  last (split "," row)
  = Some (if isValidScore rating then "Yes" else "No").
Proof.
  intros _ row. subst row. split.
  - unfold csvRow.
    change (join "," (?a :: ?rest)) with (a +:+ String "," (join "," rest)).
    set (rest := join "," _).
    change (cell (pretty <$> issueNumber (newEntry rating cur)))
      with (pretty (number cur)).
    change (join "," (pretty (number cur) :: ?l))
      with (pretty (number cur) +:+ String "," (join "," l)).
    rewrite split_app, split_clean; [done|].
    by apply pretty_Z_occurrences.
  - change (csvRow (newEntry rating cur)) with
      ([cell (pretty <$> issueNumber (newEntry rating cur));
        quotedTitle (entryTitle (newEntry rating cur));
        cell (entryUrl (newEntry rating cur)); type rating;
        ambiguity rating; scale rating; novelty rating]
       ++ [if isValidScore rating then "Yes" else "No"]).
    rewrite join_snoc by done. rewrite split_app.
    rewrite (split_clean "," (if isValidScore rating then "Yes" else "No"))
      by (by destruct (isValidScore rating)).
    by rewrite last_snoc.
Qed.

Lemma csvRow_ends_witness :
  head (split ","
          (join "," (csvRow (newEntry sampleRating
                               (sampleIssue 7 "Crash, again")))))
  = Some "7" /\
  last (split ","
          (join "," (csvRow (newEntry sampleRating
                               (sampleIssue 7 "Crash, again")))))
  = Some "No".
Proof.
  apply (csvRow_ends sampleRating (sampleIssue 7 "Crash, again")).
  reflexivity.
Defined.


(** ** X16: operator actions keep the invariant, and "Next Issue" makes
    progress *)

Lemma sessionInvariant_core s s' :
  core s' = core s -> sessionInvariant s -> sessionInvariant s'.
Proof.
  unfold core, sessionInvariant, committedFrom.
  intros [= -> -> -> -> ->]. done.
Qed.

Lemma validCount_empty : validCount ∅ = 0.
Proof. unfold validCount, values. by rewrite map_to_list_empty. Qed.

Lemma draftWellFormed_blank : draftWellFormed blankRating.
Proof. unfold draftWellFormed. simpl. repeat split; constructor. Qed.

Lemma committedFrom_mono s s' k e :
  issues s' = issues s -> currentIndex s <= currentIndex s' ->
  committedFrom s k e -> committedFrom s' k e.
Proof.
  intros His Hidx (j & cur & r & Hj & Hcur & Hrest).
  exists j, cur, r. rewrite His. split; [lia|done].
Qed.

Lemma truthy_offered v (options : list string) :
  truthy v = true -> v ∈ "" :: options -> v ∈ options.
Proof.
  intros Hv Hin. apply elem_of_cons in Hin as [->|Hin]; [discriminate|done].
Qed.

(** "Next Issue" keeps the invariant. *)
Lemma sessionInvariant_next s :
  enabled ClickNext s = true -> sessionInvariant s ->
  sessionInvariant (update ClickNext s).
Proof.
  intros Hen (Hf & Hin & Htr & Hle & Hdraft & Hent).
  simpl in Hen.
  apply andb_true_iff in Hen as [Hen _].
  apply andb_true_iff in Hen as [Hen Hcomplete].
  apply andb_true_iff in Hen as [Hs Hcur].
  apply bool_decide_eq_true in Hs, Hcur.
  destruct Hcur as [cur Hcur]. destruct (Htr Hs) as (_ & Hlt).
  unfold isRatingComplete in Hcomplete.
  repeat (apply andb_true_iff in Hcomplete as [Hcomplete ?]).
  destruct Hdraft as (Da & Dsc & Dn & Dty).
  pose proof (validCount_commit_le (scores s) cur (currentRating s)) as Hstep.
  assert (Hentries : forall s',
    issues s' = issues s -> currentIndex s <= currentIndex s' ->
    scores s' = commit (scores s) cur (currentRating s) ->
    forall k e, scores s' !! k = Some e -> committedFrom s' k e).
  { intros s' His Hidx Hsc k e Hk. rewrite Hsc in Hk.
    destruct (decide (k = number cur)) as [->|Hne].
    - rewrite commit_lookup_same in Hk. injection Hk as <-.
      exists (currentIndex s), cur, (currentRating s). rewrite His.
      split; [done|]. split; [done|]. split; [done|]. split; [done|].
      split; [by apply truthy_offered|]. split; [by apply truthy_offered|].
      split; by apply truthy_offered.
    - rewrite commit_lookup_other in Hk by done.
      apply (committedFrom_mono s); [done|done|by apply Hent]. }
  simpl. unfold handleNext. rewrite Hcur.
  destruct (TARGET_ISSUE_COUNT <=? _)%nat eqn:Ht; simpl.
  - set (s' := setStep complete _).
    assert (HE : step s' = complete /\ issues s' = issues s /\
                 currentIndex s' = currentIndex s /\
                 scores s' = commit (scores s) cur (currentRating s) /\
                 currentRating s' = currentRating s) by (by destruct s).
    destruct HE as (E1 & E2 & E3 & E4 & E5).
    unfold sessionInvariant. rewrite E1, E5.
    split; [done|]. split; [done|]. split; [done|].
    split; [rewrite E4; unfold TARGET_ISSUE_COUNT in *; lia|].
    split; [done|]. apply Hentries; [done|lia|done].
  - apply Nat.leb_gt in Ht. destruct (hasNext s) eqn:Hnext; simpl.
    + apply hasNext_spec in Hnext.
      set (s' := setCurrentIndex _ _).
      assert (HE : step s' = triage /\ issues s' = issues s /\
                   currentIndex s' = currentIndex s + 1 /\
                   scores s' = commit (scores s) cur (currentRating s) /\
                   currentRating s' = currentRating s)
        by (destruct s; simpl in *; by subst).
      destruct HE as (E1 & E2 & E3 & E4 & E5).
      unfold sessionInvariant. rewrite E1, E5.
      split; [done|]. split; [done|]. split.
      { intros _. rewrite E2, E3, E4. split; [|done].
        by apply lookup_lt_is_Some_2. }
      split; [rewrite E4; lia|].
      split; [done|]. apply Hentries; [done|lia|done].
    + set (s' := setStep complete _).
      assert (HE : step s' = complete /\ issues s' = issues s /\
                   currentIndex s' = currentIndex s /\
                   scores s' = commit (scores s) cur (currentRating s) /\
                   currentRating s' = currentRating s) by (by destruct s).
      destruct HE as (E1 & E2 & E3 & E4 & E5).
      unfold sessionInvariant. rewrite E1, E5.
      split; [done|]. split; [done|]. split; [done|].
      split; [rewrite E4; lia|].
      split; [done|]. apply Hentries; [done|lia|done].
Qed.

(** Leaving the session (exit, or a new session) keeps the invariant. *)
Lemma sessionInvariant_reset s s' :
  step s' = input -> scores s' = ∅ -> currentRating s' = currentRating s ->
  sessionInvariant s -> sessionInvariant s'.
Proof.
  intros E1 E2 E3 (Hf & Hin & Htr & Hle & Hdraft & Hent).
  unfold sessionInvariant. rewrite E1, E2, E3, validCount_empty.
  split; [done|]. split; [done|]. split; [done|].
  split; [lia|]. split; [done|]. intros k e Hk.
  by rewrite lookup_empty in Hk.
Qed.

(** Every action of the operator keeps the invariant. *)
Lemma sessionInvariant_update a s :
  isOperatorAction a = true -> enabled a s = true -> offered a = true ->
  sessionInvariant s -> sessionInvariant (update a s).
Proof.
  intros Hop Hen Hoff Hinv.
  destruct a; try discriminate Hop;
    try (apply (sessionInvariant_core s); [by destruct s|done]).
  - (* EditRating *)
    destruct Hinv as (Hf & Hin & Htr & Hle & (Da & Dsc & Dn & Dty) & Hent).
    assert (H1 : step (update (EditRating field val) s) = step s /\
                 issues (update (EditRating field val) s) = issues s /\
                 currentIndex (update (EditRating field val) s)
                 = currentIndex s /\
                 scores (update (EditRating field val) s) = scores s)
      by (by destruct s, field).
    destruct H1 as (E1 & E2 & E3 & E4).
    unfold sessionInvariant. rewrite E1, E2, E3, E4.
    split; [done|]. split; [done|]. split; [done|]. split; [done|].
    split.
    + unfold draftWellFormed.
      destruct field; unfold offered in Hoff;
        apply includes_elem_of in Hoff;
        destruct s; simpl in *; repeat split;
        (done || by apply elem_of_cons; right).
    + intros k e Hk. apply (committedFrom_mono s); [done|lia|by apply Hent].
  - by apply sessionInvariant_next.
  - (* ConfirmExit *)
    apply (sessionInvariant_reset s); [by destruct s..|done].
  - (* ConfirmFinish *)
    destruct Hinv as (Hf & Hin & Htr & Hle & Hdraft & Hent).
    assert (H1 : step (update ConfirmFinish s) = complete /\
                 issues (update ConfirmFinish s) = issues s /\
                 currentIndex (update ConfirmFinish s) = currentIndex s /\
                 scores (update ConfirmFinish s) = scores s /\
                 currentRating (update ConfirmFinish s) = currentRating s)
      by (by destruct s).
    destruct H1 as (E1 & E2 & E3 & E4 & E5).
    unfold sessionInvariant. rewrite E1, E4, E5.
    split; [done|]. split; [done|]. split; [done|]. split; [done|].
    split; [done|]. intros k e Hk.
    apply (committedFrom_mono s); [done|lia|by apply Hent].
  - (* StartNewSession *)
    apply (sessionInvariant_reset s); [by destruct s..|done].
Qed.

(** X16. "Next Issue", whenever it can be pressed, records the draft
    under the current issue's number and then either completes the session
    or leaves it in triage on a strictly later issue with a blank draft, so
    that "Next Issue" is disabled until the new issue is rated. The issue
    list is not changed. *)
Theorem next_makes_progress (env : Env) (s : State) (t : Trace) :
  enabled ClickNext s = true ->
  exists cur s' t',
    issues s !! currentIndex s = Some cur /\
    dispatch env ClickNext s t = (Returned s', t') /\
    scores s' = commit (scores s) cur (currentRating s) /\
    issues s' = issues s /\
    (step s' = complete \/
     (step s' = triage /\ currentIndex s < currentIndex s' /\
      is_Some (issues s' !! currentIndex s') /\
      currentRating s' = blankRating /\ enabled ClickNext s' = false)).
Proof.
  intros Hen. simpl in Hen.
  apply andb_true_iff in Hen as [Hen _].
  apply andb_true_iff in Hen as [Hen _].
  apply andb_true_iff in Hen as [Hs Hcur].
  apply bool_decide_eq_true in Hs, Hcur. destruct Hcur as [cur Hcur].
  exists cur.
  assert (Hdone : forall s1,
    step s1 = complete ->
    exists s' t', (if depsChanged s s1 then runEffect env s1 else ret s1) t
                  = (Returned s', t') /\ s' = s1).
  { intros s1 H1. exists s1, t. split; [|done].
    rewrite runEffect_idle by congruence.
    by destruct (depsChanged s s1). }
  unfold dispatch.
  change (update ClickNext s) with (default s (handleNext s)).
  unfold handleNext. rewrite Hcur.
  destruct (TARGET_ISSUE_COUNT <=? _)%nat eqn:Ht; simpl.
  { destruct (Hdone (setStep complete
                (setScores (commit (scores s) cur (currentRating s)) s)))
      as (s' & t' & Hrun & ->); [by destruct s|].
    eexists. exists t'. split; [done|]. split; [exact Hrun|].
    split; [by destruct s|]. split; [by destruct s|]. left. by destruct s. }
  destruct (hasNext s) eqn:Hnext; simpl.
  2:{ destruct (Hdone (setStep complete
                  (setScores (commit (scores s) cur (currentRating s)) s)))
        as (s' & t' & Hrun & ->); [by destruct s|].
      eexists. exists t'. split; [done|]. split; [exact Hrun|].
      split; [by destruct s|]. split; [by destruct s|]. left.
      by destruct s. }
  apply hasNext_spec in Hnext.
  set (s1 := setCurrentIndex _ _).
  assert (HE : step s1 = triage /\ issues s1 = issues s /\
               currentIndex s1 = currentIndex s + 1 /\
               scores s1 = commit (scores s) cur (currentRating s))
    by (destruct s; simpl in *; by subst).
  destruct HE as (E1 & E2 & E3 & E4).
  replace (depsChanged s s1) with true.
  2:{ unfold depsChanged. rewrite E3.
      rewrite (bool_decide_eq_false_2 (currentIndex s = _)); [done|lia]. }
  destruct (issueLifecycle_settles env (length (issues s1) - currentIndex s1)
              s1 t E1 (Nat.le_refl _))
    as (s' & t' & Hrun & Hsc & His & Hcases).
  exists s', t'. split; [done|]. split; [exact Hrun|].
  split; [congruence|]. split; [congruence|].
  destruct Hcases as [(Hst & Hle & (c & Hc & _) & _ & Hrt & Hck & _)
                     | [(Hst & _) | [Hnone _]]].
  - right. split; [done|]. split; [lia|].
    split; [rewrite His; eauto|]. split; [done|].
    simpl. unfold isRatingComplete. rewrite Hrt. simpl.
    by rewrite !andb_false_r.
  - by left.
  - apply lookup_ge_None in Hnone. rewrite E2, E3 in Hnone. lia.
Qed.

Lemma next_makes_progress_witness :
  exists cur s' t',
    issues ratingFirst !! currentIndex ratingFirst = Some cur /\
    dispatch sampleEnv ClickNext ratingFirst emptyTrace = (Returned s', t') /\
    scores s' = commit (scores ratingFirst) cur (currentRating ratingFirst) /\
    issues s' = issues ratingFirst /\
    (step s' = complete \/
     (step s' = triage /\ currentIndex ratingFirst < currentIndex s' /\
      is_Some (issues s' !! currentIndex s') /\
      currentRating s' = blankRating /\ enabled ClickNext s' = false)).
Proof.
  apply (next_makes_progress sampleEnv ratingFirst emptyTrace). reflexivity.
Defined.

(** ** X17-X19: the effect and the network *)







(** X19. Only what moves the session onto an issue reaches the network.
    Editing a setting or the rating, opening, cancelling or confirming a
    modal, and starting a new session are plain state updates: the effect
    does nothing after them and the trace (requests sent, timers set, time
    waited) is left as it was. *)
Theorem quiet_actions (env : Env) (a : Action) (s : State) (t : Trace) :
  match a with
  | ClickNext | IssuesFetched _ | PrCheckSkips => True
  | _ => dispatch env a s t = (Returned (update a s), t)
  end.
Proof.
  assert (Hsame : forall s',
    step s' = step s -> currentIndex s' = currentIndex s ->
    (if depsChanged s s' then runEffect env s' else ret s') t
    = (Returned s', t)).
  { intros s' H1 H2. by rewrite depsChanged_same. }
  assert (Hleft : forall s',
    step s' <> triage ->
    (if depsChanged s s' then runEffect env s' else ret s') t
    = (Returned s', t)).
  { intros s' H1. rewrite runEffect_idle by done.
    by destruct (depsChanged s s'). }
  destruct a; try exact I; unfold dispatch;
    try (apply Hsame; by destruct s);
    try (apply Hleft; by destruct s).
Qed.


(** ** The session event by event *)

(** *** The events against the functions *)

(** Answered in the render that started the check, the skip is the one of
    [processCurrentIssue]. *)
Lemma lateSkip_current s :
  lateSkip (issues s) (currentIndex s) s = update PrCheckSkips s.
Proof. by destruct s. Qed.


(** What the summary call can answer: a non-empty text, or an error. *)
Lemma summaryCall_result env i key t :
  (exists v, (summaryCall env i key t).1 = Returned (Some v) /\ v <> "") \/
  (exists e, (summaryCall env i key t).1 = Thrown e).
Proof.
  assert (Hcall : forall text,
    (exists v, (fetchGeminiSummary env text key t).1 = Returned (Some v) /\
               v <> "") \/
    (exists e, (fetchGeminiSummary env text key t).1 = Thrown e)).
  { intros text.
    destruct (fetchGeminiSummary_result env text key t)
      as [(v & t' & -> & Hv) | (e & t' & ->)]; [left|right]; eauto. }
  unfold summaryCall, bind, fetch, awaitJson, ret, throw.
  destruct (comments_api env (comments_url i)) as [e|response];
    [right; by exists e|].
  destruct (ok response).
  - destruct (json response) as [e|comments]; [right; by exists e|].
    specialize (Hcall (fullText i comments)).
    by destruct (fetchGeminiSummary env (fullText i comments) key t)
      as [[summary|e] t'].
  - specialize (Hcall (fullText i [])).
    by destruct (fetchGeminiSummary env (fullText i []) key t)
      as [[summary|e] t'].
Qed.

(** *** What the effect's start leaves alone *)

Lemma startEffect_ui before after pending :
  step (ui (startEffect before after pending)) = step after /\
  issues (ui (startEffect before after pending)) = issues after /\
  currentIndex (ui (startEffect before after pending)) = currentIndex after /\
  scores (ui (startEffect before after pending)) = scores after /\
  loading (ui (startEffect before after pending)) = loading after /\
  (currentRating (ui (startEffect before after pending))
   = currentRating after \/
   currentRating (ui (startEffect before after pending)) = blankRating).
Proof.
  unfold startEffect. destruct (depsChanged before after); [|simpl; tauto].
  destruct (step after) eqn:Hs; try (simpl; tauto).
  destruct (issues after !! currentIndex after); [|simpl; tauto].
  destruct after; simpl in *. tauto.
Qed.

Lemma startEffect_tasks before after pending :
  tasks (startEffect before after pending) = pending \/
  exists cur,
    issues after !! currentIndex after = Some cur /\
    tasks (startEffect before after pending)
    = pending ++ [CheckTask (issues after) (currentIndex after) cur].
Proof.
  unfold startEffect. destruct (depsChanged before after); [|by left].
  destruct (step after); try (by left).
  destruct (issues after !! currentIndex after) as [cur|]; [|by left].
  right. by exists cur.
Qed.

Lemma renders_frame s s' :
  step s' = step s -> issues s' = issues s ->
  currentIndex s' = currentIndex s -> renders s' = renders s.
Proof. unfold renders. by intros -> -> ->. Qed.

Lemma startEffect_renders before after pending :
  renders (ui (startEffect before after pending)) = renders after.
Proof.
  destruct (startEffect_ui before after pending) as (E1 & E2 & E3 & _).
  by apply renders_frame.
Qed.

(** What the operator can do, the screen shows. *)
Lemma enabled_renders a s :
  isOperatorAction a = true -> enabled a s = true -> renders s = true.
Proof.
  intros Hop Hen. unfold renders.
  destruct a; try discriminate Hop; simpl in Hen;
    repeat match goal with
    | H : _ && _ = true |- _ => apply andb_true_iff in H as [? ?]
    | H : bool_decide (step _ = _) = true |- _ =>
        apply bool_decide_eq_true in H; rewrite H
    end; done.
Qed.

(** *** Counting the searches in flight *)

Lemma searches_app l1 l2 : searches (l1 ++ l2) = searches l1 + searches l2.
Proof. unfold searches. by rewrite List.filter_app, length_app. Qed.

Lemma searches_elem l : SearchTask ∈ l -> 0 < searches l.
Proof.
  induction l as [|x l IH]; intros Hin.
  - by apply not_elem_of_nil in Hin.
  - apply elem_of_cons in Hin as [<-|Hin].
    + unfold searches. simpl. lia.
    + specialize (IH Hin). unfold searches in *. simpl.
      destruct (isSearch x); simpl; lia.
Qed.

Lemma checksStarted_remove before x after :
  checksStarted (before ++ x :: after) -> checksStarted (before ++ after).
Proof.
  intros H issues0 index0 cur Hin. apply H.
  apply elem_of_app in Hin as [Hin|Hin]; apply elem_of_app;
    [by left|right; by apply elem_of_cons; right].
Qed.

Lemma checksStarted_snoc pending x :
  checksStarted pending ->
  (forall issues0 index0 cur,
     x = CheckTask issues0 index0 cur -> issues0 !! index0 = Some cur) ->
  checksStarted (pending ++ [x]).
Proof.
  intros H Hx issues0 index0 cur Hin.
  apply elem_of_app in Hin as [Hin|Hin]; [by apply H|].
  apply list_elem_of_singleton in Hin. by apply Hx.
Qed.

Lemma checksStarted_nil : checksStarted [].
Proof. intros issues0 index0 cur Hin. by apply not_elem_of_nil in Hin. Qed.

(** *** The invariant *)

Lemma sessionInvariant_stateInvariant s :
  sessionInvariant s -> stateInvariant s.
Proof.
  intros (Hf & Hin & Htr & Hle & Hdraft & Hent).
  split; [done|]. split; [done|]. split; [|done].
  intros Hs. by destruct (Htr Hs).
Qed.

Lemma stateInvariant_renders s :
  stateInvariant s -> renders s = true -> sessionInvariant s.
Proof.
  intros (Hf & Hin & Htr & Hle & Hdraft & Hent) Hr.
  split; [done|]. split; [done|]. split; [|done].
  intros Hs. split; [|by apply Htr].
  unfold renders in Hr. rewrite Hs in Hr. by apply bool_decide_eq_true in Hr.
Qed.

Lemma stateInvariant_core s s' :
  core s' = core s -> stateInvariant s -> stateInvariant s'.
Proof.
  unfold core, stateInvariant, committedFrom.
  intros [= -> -> -> -> ->]. done.
Qed.

Lemma stateInvariant_frame s s' :
  step s' = step s \/ step s' = complete ->
  issues s' = issues s -> currentIndex s <= currentIndex s' ->
  scores s' = scores s -> draftWellFormed (currentRating s') ->
  stateInvariant s -> stateInvariant s'.
Proof.
  intros Hstep His Hidx Hsc Hdraft' (Hf & Hin & Htr & Hle & Hdraft & Hent).
  unfold stateInvariant. rewrite Hsc.
  split; [destruct Hstep as [-> | ->]; done|].
  split; [destruct Hstep as [-> | ->]; done|].
  split; [destruct Hstep as [-> | ->]; done|].
  split; [done|]. split; [done|].
  intros k e Hk. apply (committedFrom_mono s); [done|done|by apply Hent].
Qed.

Lemma stateInvariant_fetched pureIssues s :
  scores s = ∅ -> stateInvariant s ->
  stateInvariant (update (IssuesFetched pureIssues) s).
Proof.
  intros Hempty (Hf & Hin & Htr & Hle & Hdraft & Hent).
  set (s1 := update _ _).
  assert (HE : step s1 = triage /\ scores s1 = scores s /\
               currentRating s1 = currentRating s) by (by destruct s).
  destruct HE as (E1 & E2 & E3).
  unfold stateInvariant. rewrite E1, E2, E3, Hempty, validCount_empty.
  split; [done|]. split; [done|].
  split; [unfold TARGET_ISSUE_COUNT; lia|].
  split; [lia|]. split; [done|]. intros k e Hk.
  by rewrite lookup_empty in Hk.
Qed.

Lemma lateSkip_frame issues0 index0 s :
  (step (lateSkip issues0 index0 s) = step s \/
   step (lateSkip issues0 index0 s) = complete) /\
  issues (lateSkip issues0 index0 s) = issues s /\
  currentIndex s <= currentIndex (lateSkip issues0 index0 s) /\
  scores (lateSkip issues0 index0 s) = scores s /\
  currentRating (lateSkip issues0 index0 s) = currentRating s /\
  loading (lateSkip issues0 index0 s) = loading s.
Proof.
  unfold lateSkip.
  destruct (Z.of_nat index0 <? Z.of_nat (length issues0) - 1)%Z;
    destruct s; simpl; repeat split; (by left) || (by right) || lia || done.
Qed.

(** An operator action outside triage stays outside triage, writes no
    score and leaves the start button as it is. *)
Lemma update_idle a s :
  isOperatorAction a = true -> enabled a s = true -> step s <> triage ->
  step (update a s) <> triage /\
  (scores s = ∅ -> scores (update a s) = ∅) /\
  loading (update a s) = loading s.
Proof.
  intros Hop Hen Hs.
  destruct a; try discriminate Hop; simpl in Hen;
    repeat match goal with
    | H : _ && _ = true |- _ => apply andb_true_iff in H as [? ?]
    | H : bool_decide _ = true |- _ => apply bool_decide_eq_true in H
    end; try done;
    destruct s; simpl in *; subst; done.
Qed.

Lemma configInvariant_startEffect before after pending :
  configInvariant {| ui := after; tasks := pending |} ->
  configInvariant (startEffect before after pending).
Proof.
  intros (Hst & Hle & Hsearch & Hchecks). simpl in *.
  destruct (startEffect_ui before after pending)
    as (E1 & E2 & E3 & E4 & E5 & E6).
  assert (Hn : searches (tasks (startEffect before after pending))
               = searches pending).
  { destruct (startEffect_tasks before after pending)
      as [-> | (cur & _ & ->)]; [done|].
    rewrite searches_app. unfold searches at 2. simpl. lia. }
  split; [|split; [|split]].
  - apply (stateInvariant_frame after); [by left|done|lia|done| |done].
    destruct E6 as [-> | ->]; [by destruct Hst as (_ & _ & _ & _ & ? & _)|].
    apply draftWellFormed_blank.
  - by rewrite Hn.
  - rewrite Hn, E1, E4, E5. exact Hsearch.
  - destruct (startEffect_tasks before after pending)
      as [-> | (cur & Hcur & ->)]; [done|].
    apply checksStarted_snoc; [done|].
    by intros issues0 index0 cur' [= <- <- <-].
Qed.

(** Every configuration of a session satisfies the invariant. *)
Lemma areachable_configInvariant c : areachable c -> configInvariant c.
Proof.
  induction 1 as [u g k|c ev c' _ IH Hstep].
  { split; [|split; [|split]].
    - unfold stateInvariant.
      change (scores (ui _)) with (∅ : gmap Z ScoreEntry).
      change (currentRating (ui _)) with blankRating.
      change (step (ui _)) with input.
      rewrite validCount_empty.
      split; [done|]. split; [done|]. split; [done|].
      split; [lia|]. split; [apply draftWellFormed_blank|].
      intros ? ? Hk. by rewrite lookup_empty in Hk.
    - unfold searches. simpl. lia.
    - unfold searches. simpl. lia.
    - apply checksStarted_nil. }
  destruct IH as (Hst & Hle & Hsearch & Hchecks).
  destruct Hstep as
    [a c Hop Hen Hoff
    |c Hen Hurl
    |c repoData Hen Hurl
    |c reason before after Hr Htasks
    |c pureIssues before after Hr Htasks Hne
    |c issues0 index0 cur before after Hr Htasks
    |c issues0 index0 cur before after Hr Htasks
    |c cur r before after env key t Hr Htasks Hcall].
  - (* the operator acts *)
    apply configInvariant_startEffect.
    split; [|split; [|split]]; simpl; [|done| |done].
    + apply sessionInvariant_stateInvariant.
      apply sessionInvariant_update; [done..|].
      apply stateInvariant_renders; [done|]. by apply (enabled_renders a).
    + intros Hpos. destruct (Hsearch Hpos) as (Hs & Hsc & Hl).
      destruct (update_idle a (ui c) Hop Hen Hs) as (H1 & H2 & H3).
      rewrite H3. auto.
  - (* start pressed on a URL that does not parse *)
    simpl in Hen.
    repeat (apply andb_true_iff in Hen as [Hen ?]).
    apply bool_decide_eq_true in Hen.
    assert (Hl : loading (ui c) = false) by (by destruct (loading (ui c))).
    split; [|split; [|split]]; simpl; [|done| |done].
    + apply (stateInvariant_core (ui c)); [by destruct (ui c)|done].
    + intros Hpos. destruct (Hsearch Hpos) as (_ & _ & Hl'). congruence.
  - (* start pressed *)
    simpl in Hen.
    repeat (apply andb_true_iff in Hen as [Hen ?]).
    apply bool_decide_eq_true in Hen.
    assert (Hl : loading (ui c) = false) by (by destruct (loading (ui c))).
    assert (Hnone : searches (tasks c) = 0).
    { destruct (searches (tasks c)) eqn:Hn; [done|].
      destruct Hsearch as (_ & _ & Hl'); [lia|congruence]. }
    split; [|split; [|split]]; simpl.
    + apply (stateInvariant_core (ui c)); [by destruct (ui c)|done].
    + rewrite searches_app, Hnone. unfold searches. simpl. lia.
    + intros _. destruct Hst as (_ & Hin & _).
      specialize (Hin Hen). destruct (ui c); simpl in *. by subst.
    + apply checksStarted_snoc; [done|]. intros ? ? ? [=].
  - (* the search fails *)
    rewrite Htasks in Hle, Hsearch, Hchecks.
    rewrite searches_app in Hle, Hsearch.
    change (searches (SearchTask :: after)) with (S (searches after))
      in Hle, Hsearch.
    split; [|split; [|split]]; simpl.
    + apply (stateInvariant_core (ui c)); [by destruct (ui c)|done].
    + rewrite searches_app. lia.
    + rewrite searches_app. lia.
    + by apply checksStarted_remove in Hchecks.
  - (* the search answers *)
    rewrite Htasks in Hle, Hsearch, Hchecks.
    rewrite searches_app in Hle, Hsearch.
    change (searches (SearchTask :: after)) with (S (searches after))
      in Hle, Hsearch.
    destruct Hsearch as (Hs & Hsc & Hl); [lia|].
    apply configInvariant_startEffect.
    split; [|split; [|split]]; simpl.
    + by apply stateInvariant_fetched.
    + rewrite searches_app. lia.
    + rewrite searches_app. lia.
    + by apply checksStarted_remove in Hchecks.
  - (* a PR check answers: skip *)
    rewrite Htasks in Hle, Hsearch, Hchecks.
    rewrite searches_app in Hle, Hsearch.
    change (searches (CheckTask issues0 index0 cur :: after))
      with (searches after) in Hle, Hsearch.
    destruct (lateSkip_frame issues0 index0 (ui c))
      as (E1 & E2 & E3 & E4 & E5 & E6).
    apply configInvariant_startEffect.
    split; [|split; [|split]]; simpl.
    + apply (stateInvariant_frame (ui c)); [done..| |done].
      rewrite E5. by destruct Hst as (_ & _ & _ & _ & ? & _).
    + rewrite searches_app. lia.
    + rewrite searches_app. intros Hpos.
      destruct (Hsearch Hpos) as (Hs & Hsc & Hl).
      rewrite E4, E6. split; [|done].
      destruct E1 as [-> | ->]; done.
    + by apply checksStarted_remove in Hchecks.
  - (* a PR check answers: no open pull request *)
    rewrite Htasks in Hle, Hsearch, Hchecks.
    rewrite searches_app in Hle, Hsearch.
    change (searches (CheckTask issues0 index0 cur :: after))
      with (searches after) in Hle, Hsearch.
    assert (Hn : searches (before ++ after ++ [SummaryTask cur])
                 = searches before + searches after).
    { rewrite !searches_app. unfold searches at 3. simpl. lia. }
    split; [|split; [|split]]; simpl.
    + apply (stateInvariant_core (ui c)); [by destruct (ui c)|done].
    + rewrite Hn. lia.
    + rewrite Hn. intros Hpos. destruct (Hsearch Hpos) as (Hs & Hsc & Hl).
      destruct (ui c); simpl in *. by subst.
    + rewrite app_assoc. apply checksStarted_snoc; [|intros ? ? ? [=]].
      by apply checksStarted_remove in Hchecks.
  - (* a summary answers *)
    rewrite Htasks in Hle, Hsearch, Hchecks.
    rewrite searches_app in Hle, Hsearch.
    change (searches (SummaryTask cur :: after))
      with (searches after) in Hle, Hsearch.
    split; [|split; [|split]]; simpl.
    + apply (stateInvariant_core (ui c)); [by destruct r, (ui c)|done].
    + rewrite searches_app. lia.
    + rewrite searches_app. intros Hpos.
      destruct (Hsearch Hpos) as (Hs & Hsc & Hl).
      destruct r, (ui c); simpl in *; by subst.
    + by apply checksStarted_remove in Hchecks.
Qed.

(** *** The sample sessions are sessions *)

Lemma areachable_doesAll script :
  forall c,
    areachable c -> allowedAll script c = true ->
    areachable (doesAll script c).
Proof.
  induction script as [|a rest IH]; intros c Hc Hall; [done|].
  simpl in Hall.
  apply andb_true_iff in Hall as [Hall Hrest].
  apply andb_true_iff in Hall as [Hall Hoff].
  apply andb_true_iff in Hall as [Hop Hen].
  apply (IH (does a c)); [|done].
  apply (areachable_step c (Does a)); [done|]. by apply astep_does.
Qed.

Lemma areachable_lateSearching : areachable lateSearching.
Proof.
  apply (areachable_step lateMounted PressStart);
    [apply areachable_mount|].
  apply (astep_start lateMounted
           {| owner := Some "acme"; repo := Some "widget" |});
    by vm_compute.
Qed.

Lemma areachable_lateChecking : areachable lateChecking.
Proof.
  apply (areachable_step lateSearching (SearchAnswers (inr [issue2])));
    [apply areachable_lateSearching|].
  by apply (astep_search_found lateSearching [issue2] [] []).
Qed.

Lemma areachable_lateExited : areachable lateExited.
Proof.
  apply areachable_doesAll; [apply areachable_lateChecking|by vm_compute].
Qed.


Lemma areachable_staleRestarted : areachable staleRestarted.
Proof.
  assert (H1 : areachable staleChecking).
  { apply (areachable_step lateSearching
             (SearchAnswers (inr [issue2; issue3])));
      [apply areachable_lateSearching|].
    by apply (astep_search_found lateSearching [issue2; issue3] [] []). }
  assert (H2 : areachable staleExited)
    by (apply areachable_doesAll; [exact H1|by vm_compute]).
  assert (H3 : areachable staleSearching).
  { apply (areachable_step staleExited PressStart); [exact H2|].
    apply (astep_start staleExited
             {| owner := Some "acme"; repo := Some "widget" |});
      by vm_compute. }
  apply (areachable_step staleSearching (SearchAnswers (inr [issue1])));
    [exact H3|].
  apply (astep_search_found staleSearching [issue1]
           [CheckTask [issue2; issue3] 0 issue2] []);
    [by vm_compute|by vm_compute|done].
Qed.

Lemma areachable_staleAnswered : areachable staleAnswered.
Proof.
  apply (areachable_step staleRestarted
           (CheckAnswers [issue2; issue3] 0 issue2 true));
    [apply areachable_staleRestarted|].
  apply (astep_check_skips staleRestarted [issue2; issue3] 0 issue2 []
           [CheckTask [issue1] 0 issue1]);
    by vm_compute.
Qed.

Lemma areachable_slowFirstFailed : areachable slowFirstFailed.
Proof.
  assert (H1 : areachable slowChecking).
  { apply (areachable_step lateSearching
             (SearchAnswers (inr [issue1; issue3])));
      [apply areachable_lateSearching|].
    by apply (astep_search_found lateSearching [issue1; issue3] [] []). }
  assert (H2 : areachable slowSummarizing).
  { apply (areachable_step slowChecking
             (CheckAnswers [issue1; issue3] 0 issue1 false)); [exact H1|].
    apply (astep_check_passes slowChecking [issue1; issue3] 0 issue1 [] []);
      by vm_compute. }
  assert (H3 : areachable slowMovedOn)
    by (apply areachable_doesAll; [exact H2|by vm_compute]).
  assert (H4 : areachable slowSecondSummarizing).
  { apply (areachable_step slowMovedOn
             (CheckAnswers [issue1; issue3] 1 issue3 false)); [exact H3|].
    apply (astep_check_passes slowMovedOn [issue1; issue3] 1 issue3
             [SummaryTask issue1] []);
      by vm_compute. }
  assert (H5 : areachable slowSecondShown).
  { apply (areachable_step slowSecondSummarizing
             (SummaryAnswers issue3 (Returned (Some "A summary."))));
      [exact H4|].
    apply (astep_summary slowSecondSummarizing issue3
             (Returned (Some "A summary.")) [SummaryTask issue1] []
             sampleEnv "key" emptyTrace);
      by vm_compute. }
  apply (areachable_step slowSecondShown
           (SummaryAnswers issue1 (Thrown (NetworkError "Failed to fetch"))));
    [exact H5|].
  apply (astep_summary slowSecondShown issue1
           (Thrown (NetworkError "Failed to fetch")) [] []
           downEnv "key" emptyTrace);
    by vm_compute.
Qed.

(** *** Counting with the values themselves *)

Lemma isValidScore_fullyScored (k : Z) (e : ScoreEntry) :
  isValidScore e = true <-> fullyScored (k, e).
Proof.
  unfold isValidScore, fullyScored.
  rewrite !andb_true_iff, !includes_elem_of. unfold validValues. simpl.
  tauto.
Qed.

(** [validCount] counts the entries whose three scores are digits from 1
    to 5. *)
Lemma validCount_filter (m : gmap Z ScoreEntry) :
  validCount m = size (filter fullyScored m).
Proof.
  induction m as [|k e m Hk IH] using map_ind.
  - by rewrite validCount_empty, map_filter_empty, map_size_empty.
  - rewrite validCount_insert_fresh by done.
    destruct (isValidScore e) eqn:Hv.
    + rewrite map_filter_insert_True by (by apply isValidScore_fullyScored).
      rewrite map_size_insert_None by (by rewrite map_lookup_filter, Hk).
      lia.
    + rewrite map_filter_insert_False.
      2:{ rewrite <- isValidScore_fullyScored. congruence. }
      rewrite delete_id by done. lia.
Qed.

(** ** X14: what holds at every moment of a session *)

(** X14. At every moment of a session, whatever the order in which the
    answers of the search, the PR checks and the summaries arrive: the step
    is never "fetching"; the score mapping is empty in the input step;
    fewer than 15 entries are fully scored in triage, and never more than
    15; the draft rating holds only values its controls offer; every entry
    of the score mapping is stored under the number of an issue of the
    fetched list at or before the current index, carries that issue's
    number, title and URL, and holds three scores from the rating buttons
    and a classification from the fixed list; while a search is in flight
    the session is not in triage, holds no score and shows the start button
    as loading; and every PR check in flight was started on an issue of the
    list it captured. In triage a current issue need not exist: a session
    can reach the triage step with the index past the end of the list, on
    which the triage screen does not render. *)
Theorem areachable_invariant :
  (forall c : Config,
     areachable c ->
     step (ui c) <> fetching /\
     (step (ui c) = input -> scores (ui c) = ∅) /\
     (step (ui c) = triage ->
        size (filter fullyScored (scores (ui c))) < 15) /\
     size (filter fullyScored (scores (ui c))) <= 15 /\
     draftWellFormed (currentRating (ui c)) /\
     (forall k e,
        scores (ui c) !! k = Some e -> committedFrom (ui c) k e) /\
     (SearchTask ∈ tasks c ->
        step (ui c) <> triage /\ scores (ui c) = ∅ /\
        loading (ui c) = true) /\
     (forall issues0 index0 cur,
        CheckTask issues0 index0 cur ∈ tasks c ->
        issues0 !! index0 = Some cur)) /\
  (exists c : Config,
     areachable c /\ step (ui c) = triage /\
     issues (ui c) !! currentIndex (ui c) = None /\
     renders (ui c) = false).
Proof.
  split.
  - intros c Hc.
    destruct (areachable_configInvariant c Hc)
      as ((Hf & Hin & Htr & Hle & Hdraft & Hent) & _ & Hsearch & Hchecks).
    rewrite <- validCount_filter.
    split; [done|]. split; [done|]. split; [done|]. split; [done|].
    split; [done|]. split; [done|]. split; [|done].
    intros Hin'. apply Hsearch. by apply searches_elem.
  - exists staleAnswered. split; [apply areachable_staleAnswered|].
    by vm_compute.
Qed.

Lemma areachable_invariant_witness :
  scores (ui lateExited) = ∅ /\
  size (filter fullyScored (scores (ui staleRestarted))) < 15 /\
  [issue2; issue3] !! 0 = Some issue2.
Proof.
  destruct areachable_invariant as [Hall _].
  destruct (Hall lateExited areachable_lateExited) as (_ & Hin & _).
  destruct (Hall staleRestarted areachable_staleRestarted)
    as (_ & _ & Htr & _ & _ & _ & _ & Hchecks).
  split; [|split].
  - by apply Hin.
  - by apply Htr.
  - apply Hchecks. vm_compute. by left.
Defined.

(** ** C1: when the session completes *)

(** What an operator action does to the step. *)
Lemma update_step a s :
  isOperatorAction a = true -> enabled a s = true ->
  match a with
  | ClickNext =>
      step s = triage /\ is_Some (issues s !! currentIndex s) /\
      step (update a s) =
        if (TARGET_ISSUE_COUNT <=? validCount (scores (update a s)))%nat
        then complete
        else if hasNext s then triage else complete
  | ConfirmFinish => step (update a s) = complete
  | ConfirmExit | StartNewSession => step (update a s) = input
  | _ => step (update a s) = step s
  end.
Proof.
  intros Hop Hen.
  destruct a; try discriminate Hop; try (by destruct s);
    try (by match goal with f : RatingField |- _ => destruct s, f end).
  simpl in Hen.
  repeat match goal with
  | H : _ && _ = true |- _ => apply andb_true_iff in H as [? ?]
  | H : bool_decide _ = true |- _ => apply bool_decide_eq_true in H
  end.
  split; [done|]. split; [done|].
  match goal with H : is_Some _ |- _ => destruct H as [cur Hcur] end.
  destruct (handleNext_step s cur Hcur) as (s' & Hnext & Hsc & Hst).
  change (update ClickNext s) with (default s (handleNext s)).
  rewrite Hnext. change (default s (Some s')) with s'. rewrite Hst.
  destruct (TARGET_ISSUE_COUNT <=? validCount (scores s'))%nat; [done|].
  destruct (hasNext s); [|done]. congruence.
Qed.

Lemma lateSkip_step issues0 index0 s :
  step (lateSkip issues0 index0 s) =
  if (Z.of_nat index0 <? Z.of_nat (length issues0) - 1)%Z
  then step s else complete.
Proof.
  unfold lateSkip.
  by destruct (Z.of_nat index0 <? Z.of_nat (length issues0) - 1)%Z, s.
Qed.




(** ** X9: what a summary answer shows *)

(** X9. The answer of a summary call turns the spinner off and writes one
    of the two displays, leaving the other as it is: a non-empty summary,
    or the failure text. Landing on the state its own call left (no error,
    empty summary) it therefore shows exactly one of the two. Landing
    later it need not: a session can show the failure text of an earlier
    issue's call beside the summary of the issue on screen, because "Next
    Issue" is not held back while a summary is awaited and the call is not
    cancelled. *)
Theorem summary_answer_shows :
  (forall (c c' : Config) (cur : Issue) (r : Outcome (option string)),
     astep c (SummaryAnswers cur r) c' ->
     isSummarizing (ui c') = false /\
     ((exists v, r = Returned (Some v) /\ v <> "" /\
                 currentSummary (ui c') = v /\
                 summaryError (ui c') = summaryError (ui c)) \/
      (exists e, r = Thrown e /\
                 summaryError (ui c')
                 = Some "Failed to generate summary. You may need to read the raw issue." /\
                 currentSummary (ui c') = currentSummary (ui c))) /\
     (summaryError (ui c) = None -> currentSummary (ui c) = "" ->
      (summaryError (ui c') = None /\ currentSummary (ui c') <> "") \/
      (summaryError (ui c') <> None /\ currentSummary (ui c') = "")) /\
     step (ui c') = step (ui c) /\ issues (ui c') = issues (ui c) /\
     currentIndex (ui c') = currentIndex (ui c) /\
     scores (ui c') = scores (ui c) /\
     currentRating (ui c') = currentRating (ui c) /\
     isCheckingPr (ui c') = isCheckingPr (ui c)) /\
  (exists c : Config,
     areachable c /\
     summaryError (ui c)
     = Some "Failed to generate summary. You may need to read the raw issue." /\
     currentSummary (ui c) = "A summary." /\
     issues (ui c) !! currentIndex (ui c) = Some issue3).
Proof.
  split.
  - intros c c' cur r Hstep.
    inversion Hstep as [| | | | | | |c0 cur0 r0 before after env key t Hr Htasks
                                     Hcall]; subst.
    pose proof (summaryCall_result env cur key t) as Hres.
    set (r := (summaryCall env cur key t).1) in *. clearbody r.
    cbn [ui].
    assert (Hframe : isSummarizing (summaryAnswer r (ui c)) = false /\
      step (summaryAnswer r (ui c)) = step (ui c) /\
      issues (summaryAnswer r (ui c)) = issues (ui c) /\
      currentIndex (summaryAnswer r (ui c)) = currentIndex (ui c) /\
      scores (summaryAnswer r (ui c)) = scores (ui c) /\
      currentRating (summaryAnswer r (ui c)) = currentRating (ui c) /\
      isCheckingPr (summaryAnswer r (ui c)) = isCheckingPr (ui c))
      by (by destruct r, (ui c)).
    destruct Hframe as (F0 & F1 & F2 & F3 & F4 & F5 & F6).
    split; [done|].
    assert (Hone :
      (exists v, r = Returned (Some v) /\ v <> "" /\
                 currentSummary (summaryAnswer r (ui c)) = v /\
                 summaryError (summaryAnswer r (ui c))
                 = summaryError (ui c)) \/
      (exists e, r = Thrown e /\
                 summaryError (summaryAnswer r (ui c))
                 = Some summaryFailureText /\
                 currentSummary (summaryAnswer r (ui c))
                 = currentSummary (ui c))).
    { destruct Hres as [(v & Hv & Hne) | (e & He)].
      - left. exists v. subst r. split; [done|]. split; [done|].
        destruct v as [|ch v]; [done|]. by destruct (ui c).
      - right. exists e. subst r. split; [done|]. by destruct (ui c). }
    split; [exact Hone|]. split; [|done].
    intros Herr Hsum.
    destruct Hone as [(v & -> & Hne & -> & ->) | (e & -> & -> & ->)].
    + by left.
    + by right.
  - exists slowFirstFailed. split; [apply areachable_slowFirstFailed|].
    by vm_compute.
Qed.

Lemma summary_answer_shows_witness :
  currentSummary (ui slowSecondShown) = "A summary." /\
  summaryError (ui slowSecondShown) = None.
Proof.
  destruct summary_answer_shows as [Hall _].
  destruct (Hall slowSecondSummarizing slowSecondShown issue3
              (Returned (Some "A summary.")))
    as (_ & Hone & _).
  { apply (astep_summary slowSecondSummarizing issue3
             (Returned (Some "A summary.")) [SummaryTask issue1] []
             sampleEnv "key" emptyTrace);
      by vm_compute. }
  destruct Hone as [(v & [= <-] & _ & Hsum & Herr) | (e & [=] & _)].
  split; [exact Hsum|]. rewrite Herr. reflexivity.
Defined.

(** ** X15: when the triage screen can fail to render *)

(** X15. A screen that renders keeps rendering after every event, as long
    as every PR check that answers "open pull request" was started on the
    issue list and index now on screen: "Next Issue" moves the index only
    to an issue that exists, the search installs only a non-empty list, and
    the skip of the issue on screen moves on only when a next issue exists.
    So the reads of the current issue in [handleNext] and in the triage
    screen cannot fail; only the late answer of a PR check started
    elsewhere can move the index past the end of the list. *)
Theorem renders_unless_stale_skip (c c' : Config) (ev : Event) :
  astep c ev c' ->
  renders (ui c) = true ->
  (forall issues0 index0 cur,
     ev = CheckAnswers issues0 index0 cur true ->
     step (ui c) = triage ->
     issues0 = issues (ui c) /\ index0 = currentIndex (ui c)) ->
  renders (ui c') = true /\
  (ev = Does ClickNext -> is_Some (handleNext (ui c))).
Proof.
  intros Hstep Hr Hfresh.
  destruct Hstep as
    [a c Hop Hen Hoff
    |c Hen Hurl
    |c repoData Hen Hurl
    |c reason before after _ Htasks
    |c pureIssues before after _ Htasks Hne
    |c issues0 index0 cur before after _ Htasks
    |c issues0 index0 cur before after _ Htasks
    |c cur r before after env key t _ Htasks Hcall].
  - (* the operator acts *)
    rewrite startEffect_renders.
    pose proof (update_step a (ui c) Hop Hen) as Hup.
    destruct a; try discriminate Hop;
      try (split; [|discriminate];
           unfold renders; rewrite Hup; done);
      try (split; [|discriminate]; rewrite <- Hr; apply renders_frame;
           by destruct (ui c)).
    (* ClickNext *)
    destruct Hup as (Hs & [cur Hcur] & Hup).
    split.
    2:{ intros _. unfold handleNext. rewrite Hcur.
        repeat case_match; eauto. }
    unfold renders. rewrite Hup.
    destruct (TARGET_ISSUE_COUNT <=? _)%nat; [done|].
    destruct (hasNext (ui c)) eqn:Hnext; [|done].
    apply hasNext_spec in Hnext. apply bool_decide_eq_true.
    assert (E : issues (update ClickNext (ui c)) = issues (ui c) /\
                (currentIndex (update ClickNext (ui c))
                 = currentIndex (ui c) + 1 \/
                 currentIndex (update ClickNext (ui c))
                 = currentIndex (ui c))).
    { change (update ClickNext (ui c))
        with (default (ui c) (handleNext (ui c))).
      unfold handleNext. rewrite Hcur.
      repeat case_match; destruct (ui c); simpl; auto. }
    destruct E as (-> & [-> | ->]); apply lookup_lt_is_Some_2; [lia|].
    by apply (lookup_lt_Some _ _ cur).
  - split; [|discriminate]. rewrite <- Hr. apply renders_frame;
      by destruct (ui c).
  - split; [|discriminate]. rewrite <- Hr. apply renders_frame;
      by destruct (ui c).
  - split; [|discriminate]. rewrite <- Hr. apply renders_frame;
      by destruct (ui c).
  - (* the search answers *)
    split; [|discriminate]. rewrite startEffect_renders.
    destruct pureIssues as [|i l]; [done|]. by destruct (ui c).
  - (* a PR check answers: skip *)
    split; [|discriminate]. rewrite startEffect_renders.
    unfold renders. rewrite lateSkip_step.
    destruct (Z.of_nat index0 <? Z.of_nat (length issues0) - 1)%Z eqn:Htest;
      [|done].
    destruct (step (ui c)) eqn:Hs; try done.
    destruct (Hfresh issues0 index0 cur eq_refl eq_refl) as [-> ->].
    apply Z.ltb_lt in Htest. apply bool_decide_eq_true.
    unfold lateSkip. apply Z.ltb_lt in Htest. rewrite Htest.
    assert (E : issues (setCurrentIndex
                          (currentIndex (setIsCheckingPr false (ui c)) + 1)
                          (setIsCheckingPr false (ui c))) = issues (ui c) /\
                currentIndex (setCurrentIndex
                          (currentIndex (setIsCheckingPr false (ui c)) + 1)
                          (setIsCheckingPr false (ui c)))
                = currentIndex (ui c) + 1) by (by destruct (ui c)).
    destruct E as [-> ->]. apply lookup_lt_is_Some_2.
    apply Z.ltb_lt in Htest. lia.
  - split; [|discriminate]. rewrite <- Hr. apply renders_frame;
      by destruct (ui c).
  - split; [|discriminate]. rewrite <- Hr. apply renders_frame;
      by destruct r, (ui c).
Qed.

Lemma renders_unless_stale_skip_witness :
  renders (ui (startEffect (ui staleChecking)
                 (lateSkip [issue2; issue3] 0 (ui staleChecking))
                 ([] ++ []))) = true /\
  currentIndex (ui (startEffect (ui staleChecking)
                      (lateSkip [issue2; issue3] 0 (ui staleChecking))
                      ([] ++ []))) = 1.
Proof.
  split; [|reflexivity].
  apply (renders_unless_stale_skip staleChecking _
           (CheckAnswers [issue2; issue3] 0 issue2 true)).
  - apply (astep_check_skips staleChecking [issue2; issue3] 0 issue2 [] []);
      by vm_compute.
  - by vm_compute.
  - intros issues0 index0 cur [= <- <- <-] _. by vm_compute.
Defined.

(** ** X20: the functions run to their end are one order of events *)







